(** * ImageToHeader: the codec and packaging pipeline of [main.py]

    A shallow embedding of the run-length codec, the escape-conflict
    resolver, the alpha transform, the per-image packaging decision and
    the header generator/parser, together with the properties the
    specification states about them.

    Bytes are integers in [0, 256); a [bytearray] is a list of them.
    Python exceptions are explicit results. *)

From Stdlib Require Import ZArith String Ascii DecimalString.
From Stdlib Require HexadecimalString DecimalZ DecimalPos.
From stdpp Require Import base list gmap.

Local Open Scope Z_scope.

(** ** Results of fallible Python code *)

Inductive exn : Type :=
  | IndexError      (* sequence index out of range *)
  | ValueError      (* byte must be in range(0, 256), invalid literal for int() *)
  | NoSuchObject    (* a reference that is not in the object store *)
  | FuelExhausted.  (* the loop bound of the model was too small *)

Inductive result (A : Type) : Type :=
  | Ok (a : A)
  | Raise (e : exn).
Arguments Ok {A} a.
Arguments Raise {A} e.

#[global] Instance result_ret : MRet result := λ A a, Ok a.
#[global] Instance result_bind : MBind result := λ A B k m,
  match m with
  | Ok a => k a
  | Raise e => Raise e
  end.

(** ** Byte arrays *)

Definition is_byte (v : Z) : bool := (0 <=? v) && (v <? 256).

(** The type invariant of a Python [bytearray]. *)
Definition is_bytearray (b : list Z) : Prop := Forall (λ v, 0 ≤ v < 256) b.

(** [b[i]] for a non-negative index. *)
Definition getitem (b : list Z) (i : nat) : result Z :=
  match b !! i with
  | Some v => Ok v
  | None => Raise IndexError
  end.

(** [b.append(v)] *)
Definition ba_append (b : list Z) (v : Z) : result (list Z) :=
  if is_byte v then Ok (b ++ [v]) else Raise ValueError.

(** [b.extend(vs)] *)
Definition ba_extend (b : list Z) (vs : list Z) : result (list Z) :=
  if forallb is_byte vs then Ok (b ++ vs) else Raise ValueError.

(** ** Run-length codec *)

Module RLE.

(** The inner loop of [rle_compress]:
    [while count < max_count and data[i] == data[i + count]: count += 1]. *)
Fixpoint run_count (fuel : nat) (data : list Z) (i max_count count : nat)
  : result nat :=
  match fuel with
  | O => Raise FuelExhausted
  | S fuel' =>
      if (count <? max_count)%nat then
        a ← getitem data i;
        b ← getitem data (i + count);
        if a =? b then run_count fuel' data i max_count (count + 1)
        else Ok count
      else Ok count
  end.

(** The outer loop of [rle_compress], [while i < length: ...]. *)
Fixpoint compress_loop (fuel : nat) (data : list Z) (len i : nat)
    (compressed_data : list Z) : result (list Z) :=
  match fuel with
  | O => Raise FuelExhausted
  | S fuel' =>
      if (i <? len)%nat then
        let max_count := (255 `min` (len - i))%nat in
        count ← run_count max_count data i max_count 1;
        compressed_data ←
          (if (2 <? count)%nat then
             d ← getitem data i;
             ba_extend compressed_data [2; Z.of_nat count; d]
           else
             d ← getitem data i;
             compressed_data ← ba_append compressed_data d;
             if (count =? 2)%nat then
               d1 ← getitem data (i + 1);
               ba_append compressed_data d1
             else Ok compressed_data);
        compress_loop fuel' data len (i + count) compressed_data
      else Ok compressed_data
  end.

Definition rle_compress (data : list Z) : result (list Z) :=
  compress_loop (S (length data)) data (length data) 0 [].

(** The loop of [rle_decompress], [while i < len(compressed_data): ...]. *)
Fixpoint decompress_loop (fuel : nat) (compressed_data : list Z) (i : nat)
    (decompressed_data : list Z) : result (list Z) :=
  match fuel with
  | O => Raise FuelExhausted
  | S fuel' =>
      if (i <? length compressed_data)%nat then
        b ← getitem compressed_data i;
        if b =? 2 then
          run_length ← getitem compressed_data (i + 1);
          pixel_value ← getitem compressed_data (i + 2);
          decompressed_data ←
            ba_extend decompressed_data
              (replicate (Z.to_nat run_length) pixel_value);
          decompress_loop fuel' compressed_data (i + 3) decompressed_data
        else
          decompressed_data ← ba_append decompressed_data b;
          decompress_loop fuel' compressed_data (i + 1) decompressed_data
      else Ok decompressed_data
  end.

Definition rle_decompress (compressed_data : list Z) : result (list Z) :=
  decompress_loop (S (length compressed_data)) compressed_data 0 [].

(** *** Runs

    The shape of the compressor's output is stated over the runs it
    found: a run is a byte value and a length. *)

(** The bytes a run stands for. *)
Definition run_bytes (r : Z * nat) : list Z := replicate r.2 r.1.

(** What the compressor writes for a run (lines 160-165). *)
Definition run_code (r : Z * nat) : list Z :=
  if (2 <? r.2)%nat then [2; Z.of_nat r.2; r.1] else replicate r.2 r.1.

(** Runs are greedy: a run stops at a different byte or at the cap. *)
Fixpoint maximal (runs : list (Z * nat)) : Prop :=
  match runs with
  | r :: (r' :: _) as rest => (r.2 = 255%nat ∨ r.1 ≠ r'.1) ∧ maximal rest
  | _ => True
  end.

End RLE.

(** ** Alpha transform *)

Module Alpha.

(** [l[start::step]] for [start >= 0] and [step > 0]: the slice has
    [(len - start - 1) / step + 1] items when [start < len] and none
    otherwise; item [j] is [l[start + j * step]]. *)
Definition slice_from_step {A : Type} (l : list A) (start step : nat) : list A :=
  let len := length l in
  let slicelength :=
    if (start <? len)%nat then ((len - start - 1) `div` step + 1)%nat
    else 0%nat in
  omap (λ j, l !! (start + j * step)%nat) (seq 0 slicelength).

(** [image_data[3::4]] *)
Definition get_alpha_values (image_data : list Z) : list Z :=
  slice_from_step image_data 3 4.

(** [for i in alpha_values: image_data.extend([255, 255, 255, i])] *)
Fixpoint alpha_loop (alpha_values image_data : list Z) : result (list Z) :=
  match alpha_values with
  | [] => Ok image_data
  | i :: rest =>
      image_data ← ba_extend image_data [255; 255; 255; i];
      alpha_loop rest image_data
  end.

Definition alpha_vals_to_image_data (alpha_values : list Z) : result (list Z) :=
  alpha_loop alpha_values [].

End Alpha.

(** ** Escape-conflict resolver

    [fix_data_for_rle] copies its argument and mutates the copy in place,
    so it is modelled over an object store: addresses are naturals and
    the store maps an address to the contents of the bytearray there. *)

Module Resolver.

Abbreviation store := (gmap nat (list Z)).

(** [bs.find(sub, start)] on the contents: the lowest index [>= start]
    holding [sub], or [-1]. A negative [start] counts from the end. *)
Fixpoint find_from (bs : list Z) (sub : Z) (j : Z) : Z :=
  match bs with
  | [] => -1
  | b :: bs' => if b =? sub then j else find_from bs' sub (j + 1)
  end.

Definition find (bs : list Z) (sub start : Z) : Z :=
  let start := if start <? 0 then Z.max 0 (start + Z.of_nat (length bs)) else start in
  find_from (drop (Z.to_nat start) bs) sub start.

(** [bs[i] = v] on the contents. *)
Definition setitem (bs : list Z) (i v : Z) : result (list Z) :=
  if is_byte v then
    let i := if i <? 0 then i + Z.of_nat (length bs) else i in
    if (0 <=? i) && (i <? Z.of_nat (length bs)) then Ok (<[Z.to_nat i := v]> bs)
    else Raise IndexError
  else Raise ValueError.

(** [data.copy()] allocates a new object. *)
Definition ba_copy (data : nat) (h : store) : result (nat * store) :=
  match h !! data with
  | Some bs => let r := fresh (dom h) in Ok (r, <[r := bs]> h)
  | None => Raise NoSuchObject
  end.

Definition ba_find (r : nat) (sub start : Z) (h : store) : result (Z * store) :=
  match h !! r with
  | Some bs => Ok (find bs sub start, h)
  | None => Raise NoSuchObject
  end.

Definition ba_setitem (r : nat) (i v : Z) (h : store) : result (unit * store) :=
  match h !! r with
  | Some bs => bs' ← setitem bs i v; Ok (tt, <[r := bs']> h)
  | None => Raise NoSuchObject
  end.

(** [while i != -1: copy[i] = 1; i = copy.find(2, i + 1)] *)
Fixpoint fix_loop (fuel : nat) (copy : nat) (i : Z) (h : store)
  : result (unit * store) :=
  match fuel with
  | O => Raise FuelExhausted
  | S fuel' =>
      if negb (i =? -1) then
        '(_, h) ← ba_setitem copy i 1 h;
        '(i, h) ← ba_find copy 2 (i + 1) h;
        fix_loop fuel' copy i h
      else Ok (tt, h)
  end.

(** The loop runs at most once per byte of the copy. *)
Definition fix_data_for_rle (data : nat) (h : store) : result (nat * store) :=
  '(copy, h) ← ba_copy data h;
  '(i, h) ← ba_find copy 2 0 h;
  let fuel := S (from_option length 0%nat (h !! copy)) in
  '(_, h) ← fix_loop fuel copy i h;
  Ok (copy, h).

(** The call [fix_data_for_rle(data)] seen from its caller, as a function
    of the contents of [data]: a store holding [data] alone, and the
    contents of the returned object. *)
Definition fix_data_for_rle_bytes (data : list Z) : result (list Z) :=
  '(copy, h) ← fix_data_for_rle 0%nat {[ 0%nat := data ]};
  match h !! copy with
  | Some bs => Ok bs
  | None => Raise NoSuchObject
  end.

End Resolver.

(** ** Packaging decision (the per-image body of [main]) *)

Module Packaging.

(** The tuple stored in [image_data_map]. *)
Record entry : Type := Entry {
  image_data : list Z;
  width : Z;
  height : Z;
  decompressed_size : Z;
  is_raw_png : bool;
  alpha_only : bool
}.

Definition ALPHA_ONLY : bool := true.

(** Lines 255-278 of [main], for one image: [image_data], [width] and
    [height] come from [read_image], [raw_png_data] from reading the file. *)
Definition package_image (ALPHA_ONLY : bool) (image_data : list Z)
    (width height : Z) (raw_png_data : list Z) : result entry :=
  let alpha_only := false in
  let '(alpha_only, image_data) :=
    if ALPHA_ONLY then (true, Alpha.get_alpha_values image_data)
    else (alpha_only, image_data) in
  adjusted_image_data ← Resolver.fix_data_for_rle_bytes image_data;
  let decompressed_size := Z.of_nat (length adjusted_image_data) in
  image_data ← RLE.rle_compress adjusted_image_data;
  let is_raw_png := false in
  let '(image_data, is_raw_png, alpha_only) :=
    if (length raw_png_data <? length image_data)%nat
    then (raw_png_data, true, false)
    else (image_data, is_raw_png, alpha_only) in
  Ok (Entry image_data width height decompressed_size is_raw_png alpha_only).

(** The step as [main] runs it, under the module's [ALPHA_ONLY = True]. *)
Definition main_package_image : list Z → Z → Z → list Z → result entry :=
  package_image ALPHA_ONLY.

End Packaging.

(** ** Header generation and parsing *)

Module Header.

Import Packaging.

Local Open Scope string_scope.

Definition quote : string := String "034"%char EmptyString.
Definition newline : string := String "010"%char EmptyString.

(** [str(n)] for an integer. *)
Definition str (n : Z) : string := NilZero.string_of_int (Z.to_int n).

Definition str_bool (b : bool) : string := if b then "true" else "false".

(** [sep.join(items)] *)
Definition join (sep : string) (items : list string) : string :=
  String.concat sep items.

(** The f-string of line 78. *)
Definition header_line (file_name : string) (e : entry) : string :=
  let image_data_str := join "," (map str (image_data e)) in
  let data_len := Z.of_nat (length (image_data e)) in
  "{ " ++ quote ++ file_name ++ quote ++ ", { new unsigned char[" ++ str data_len
    ++ "] { " ++ image_data_str ++ " }, " ++ str data_len
    ++ ", " ++ str (width e) ++ ", " ++ str (height e)
    ++ ", " ++ str (decompressed_size e)
    ++ ", " ++ str_bool (is_raw_png e) ++ ", " ++ str_bool (alpha_only e)
    ++ " } }," ++ newline.

Definition preamble : string :=
  "#pragma once" ++ newline ++ newline
  ++ "#include <map>" ++ newline
  ++ "#include <string>" ++ newline ++ newline
  ++ "struct ImageData {" ++ newline
  ++ "    unsigned char* data;" ++ newline
  ++ "    unsigned int size;" ++ newline
  ++ "    unsigned int width;" ++ newline
  ++ "    unsigned int height;" ++ newline
  ++ "    unsigned int originalSize;" ++ newline
  ++ "    bool isRawPng;" ++ newline
  ++ "    bool alphaOnly;" ++ newline
  ++ "};" ++ newline ++ newline
  ++ "std::map<std::string, ImageData> imageMap = {" ++ newline.

(** [image_data_map] is a dict: its items in insertion order. *)
Definition generate_header (image_data_map : list (string * entry)) : string :=
  let header := preamble in
  let header :=
    foldl (λ header '(file_name, e), header ++ header_line file_name e)
          header image_data_map in
  header ++ "};".

(** *** Strings *)

Definition is_digit (c : ascii) : bool :=
  let n := nat_of_ascii c in (48 <=? n)%nat && (n <=? 57)%nat.

(** The ASCII characters that [str.isspace] accepts. *)
Definition is_space (c : ascii) : bool :=
  let n := nat_of_ascii c in
  ((9 <=? n)%nat && (n <=? 13)%nat) || ((28 <=? n)%nat && (n <=? 32)%nat).

Fixpoint split_chars (sep : ascii) (cs cur : list ascii) : list (list ascii) :=
  match cs with
  | [] => [reverse cur]
  | c :: cs' =>
      if Ascii.eqb c sep then reverse cur :: split_chars sep cs' []
      else split_chars sep cs' (c :: cur)
  end.

(** [s.split(sep)] for a one-character separator. *)
Definition split (s : string) (sep : ascii) : list string :=
  map string_of_list_ascii (split_chars sep (list_ascii_of_string s) []).

Fixpoint lstrip (cs : list ascii) : list ascii :=
  match cs with
  | c :: cs' => if is_space c then lstrip cs' else cs
  | [] => []
  end.

Definition strip (cs : list ascii) : list ascii :=
  reverse (lstrip (reverse (lstrip cs))).

(** Decimal digits, single underscores allowed between two digits. *)
Fixpoint parse_digits (cs : list ascii) (acc : Z) (after_digit : bool) : option Z :=
  match cs with
  | [] => if after_digit then Some acc else None
  | c :: cs' =>
      if is_digit c then
        parse_digits cs' (10 * acc + (Z.of_nat (nat_of_ascii c) - 48))%Z true
      else if Ascii.eqb c "_"%char && after_digit then parse_digits cs' acc false
      else None
  end.

(** [int(s)] for a string: surrounding whitespace, an optional sign,
    decimal digits. *)
Definition int (s : string) : result Z :=
  let cs := strip (list_ascii_of_string s) in
  let '(neg, ds) :=
    match cs with
    | c :: cs' =>
        if Ascii.eqb c "-"%char then (true, cs')
        else if Ascii.eqb c "+"%char then (false, cs')
        else (false, cs)
    | [] => (false, cs)
    end in
  match parse_digits ds 0%Z false with
  | Some n => Ok (if neg then (- n)%Z else n)
  | None => Raise ValueError
  end.

(** [bool(s)] for a string. *)
Definition bool_of_str (s : string) : bool :=
  match s with
  | EmptyString => false
  | String _ _ => true
  end.

(** [bytearray(ints)] *)
Fixpoint bytearray_of (ints : list Z) : result (list Z) :=
  match ints with
  | [] => Ok []
  | v :: rest =>
      if is_byte v then bs ← bytearray_of rest; Ok (v :: bs)
      else Raise ValueError
  end.

(** [map(f, items)] consumed to the end, stopping at the first exception. *)
Fixpoint map_result {A B : Type} (f : A → result B) (items : list A)
  : result (list B) :=
  match items with
  | [] => Ok []
  | x :: rest => y ← f x; ys ← map_result f rest; Ok (y :: ys)
  end.

(** *** The regular expression of line 94

    The pattern is a sequence of literal characters and of groups, each
    group one repetition of a single-character class. *)

Inductive re_item : Type :=
  | Lit (c : ascii)   (* a literal character *)
  | LazyAny           (* [(.*?)] *)
  | Digits.           (* [(\d+)] *)

Definition lit (s : string) : list re_item := map Lit (list_ascii_of_string s).

(** Backtracking match of the pattern at the start of [cs]; the result
    lists the text of the groups in order. [(.*?)] takes as few
    characters as lets the rest match, [(\d+)] as many, and [.] is any
    character but a newline. *)
Fixpoint match_here (p : list re_item) (cs : list ascii) : option (list string) :=
  match p with
  | [] => Some []
  | Lit c :: p' =>
      match cs with
      | a :: cs' => if Ascii.eqb a c then match_here p' cs' else None
      | [] => None
      end
  | LazyAny :: p' =>
      (fix lazy (cs taken : list ascii) : option (list string) :=
         match match_here p' cs with
         | Some groups => Some (string_of_list_ascii (reverse taken) :: groups)
         | None =>
             match cs with
             | a :: cs' =>
                 if Ascii.eqb a "010"%char then None else lazy cs' (a :: taken)
             | [] => None
             end
         end) cs []
  | Digits :: p' =>
      (fix greedy (cs taken : list ascii) : option (list string) :=
         match cs with
         | a :: cs' =>
             if is_digit a then
               match greedy cs' (a :: taken) with
               | Some groups => Some groups
               | None =>
                   groups ← match_here p' cs';
                   Some (string_of_list_ascii (reverse (a :: taken)) :: groups)
               end
             else None
         | [] => None
         end) cs []
  end.

(** The items of a pattern that are groups. *)
Definition is_group (it : re_item) : bool :=
  match it with
  | Lit _ => false
  | LazyAny | Digits => true
  end.

(** [re.search]: the match at the leftmost position that has one. *)
Fixpoint search_chars (p : list re_item) (cs : list ascii) : option (list string) :=
  match match_here p cs with
  | Some groups => Some groups
  | None =>
      match cs with
      | _ :: cs' => search_chars p cs'
      | [] => None
      end
  end.

Definition re_search (p : list re_item) (line : string) : option (list string) :=
  search_chars p (list_ascii_of_string line).

Definition pattern : list re_item :=
  lit quote ++ [LazyAny] ++ lit (quote ++ ", { new unsigned char[")
    ++ [Digits] ++ lit "] {" ++ [LazyAny] ++ lit "}, "
    ++ [Digits] ++ lit ", " ++ [Digits] ++ lit ", " ++ [Digits] ++ lit ", "
    ++ [Digits] ++ lit ", " ++ [LazyAny] ++ lit " }".

(** [match.group(n)], groups numbered from 1. *)
Definition group (groups : list string) (n : nat) : result string :=
  match groups !! (n - 1)%nat with
  | Some g => Ok g
  | None => Raise IndexError
  end.

(** The tuple stored in [extracted_image_data_map]. *)
Record extracted : Type := Extracted {
  x_image_data : list Z;
  x_length : Z;
  x_width : Z;
  x_height : Z;
  x_original_size : Z;
  x_is_raw_png : bool;
  x_alpha_only : bool
}.

(** [d[k] = v] on a dict kept as its items in insertion order. *)
Fixpoint dict_set {V : Type} (d : list (string * V)) (k : string) (v : V)
  : list (string * V) :=
  match d with
  | [] => [(k, v)]
  | (k', v') :: d' =>
      if String.eqb k' k then (k', v) :: d' else (k', v') :: dict_set d' k v
  end.

(** The loop of [extract_image_data], [while i < len(lines): ...]. *)
Fixpoint extract_loop (fuel : nat) (lines : list string) (i : nat)
    (extracted_image_data_map : list (string * extracted))
  : result (list (string * extracted)) :=
  match fuel with
  | O => Raise FuelExhausted
  | S fuel' =>
      if (i <? length lines)%nat then
        line ← match lines !! i with Some l => Ok l | None => Raise IndexError end;
        extracted_image_data_map ←
          match re_search pattern line with
          | Some m =>
              filename ← group m 1;
              len ← group m 2;
              g3 ← group m 3;
              ints ← map_result int (split g3 ","%char);
              image_data ← bytearray_of ints;
              g4 ← group m 4; width ← int g4;
              g5 ← group m 5; height ← int g5;
              g6 ← group m 6; original_size ← int g6;
              g7 ← group m 7; let is_raw_png := bool_of_str g7 in
              g8 ← group m 8; let alpha_only := bool_of_str g8 in
              len ← int len;
              Ok (dict_set extracted_image_data_map filename
                    (Extracted image_data len width height original_size
                       is_raw_png alpha_only))
          | None => Ok extracted_image_data_map
          end;
        extract_loop fuel' lines (i + 1) extracted_image_data_map
      else Ok extracted_image_data_map
  end.

Definition extract_image_data (header : string)
  : result (list (string * extracted)) :=
  let lines := split header "010"%char in
  extract_loop (S (length lines)) lines 14 [].

(** What one pass of the loop does with its line (lines 92-105), as a
    function of the line. *)
Definition parse_line (extracted_image_data_map : list (string * extracted))
    (line : string) : result (list (string * extracted)) :=
  match re_search pattern line with
  | Some m =>
      filename ← group m 1;
      len ← group m 2;
      g3 ← group m 3;
      ints ← map_result int (split g3 ","%char);
      image_data ← bytearray_of ints;
      g4 ← group m 4; width ← int g4;
      g5 ← group m 5; height ← int g5;
      g6 ← group m 6; original_size ← int g6;
      g7 ← group m 7; let is_raw_png := bool_of_str g7 in
      g8 ← group m 8; let alpha_only := bool_of_str g8 in
      len ← int len;
      Ok (dict_set extracted_image_data_map filename
            (Extracted image_data len width height original_size
               is_raw_png alpha_only))
  | None => Ok extracted_image_data_map
  end.

(** The characters of the line written for a record, without the
    newline that ends it. *)
Definition record_chars (file_name : string) (e : Packaging.entry) : list ascii :=
  let chars := list_ascii_of_string in
  let len := chars (str (Z.of_nat (length (Packaging.image_data e)))) in
  "{"%char :: " "%char :: "034"%char ::
    (chars file_name ++ "034"%char ::
     (chars ", { new unsigned char[" ++ (len ++
      (chars "] {" ++
       ((" "%char :: chars (join "," (map str (Packaging.image_data e)))
           ++ [" "%char]) ++
        "}"%char :: (chars ", " ++ (len ++
         (chars ", " ++ (chars (str (Packaging.width e)) ++
          (chars ", " ++ (chars (str (Packaging.height e)) ++
           (chars ", " ++ (chars (str (Packaging.decompressed_size e)) ++
            (chars ", " ++ chars (str_bool (Packaging.is_raw_png e))
               ++ chars ", " ++ chars (str_bool (Packaging.alpha_only e))
               ++ chars " } },")))))))))))))).

(** The record a line is read back as. *)
Definition read_back (kv : string * Packaging.entry) : string * extracted :=
  (kv.1, Extracted (Packaging.image_data kv.2)
           (Z.of_nat (length (Packaging.image_data kv.2)))
           (Z.of_nat (length (Packaging.image_data kv.2)))
           (Packaging.width kv.2) (Packaging.height kv.2) true true).

(** A record the generator writes on one line that the pattern matches. *)
Definition writable (kv : string * Packaging.entry) : Prop :=
  ("034"%char ∉ list_ascii_of_string kv.1) ∧ ("010"%char ∉ list_ascii_of_string kv.1)
  ∧ is_bytearray (Packaging.image_data kv.2)
  ∧ 0 ≤ Packaging.width kv.2 ∧ 0 ≤ Packaging.height kv.2
  ∧ 0 ≤ Packaging.decompressed_size kv.2.

End Header.

(** ** Test helpers *)

Module Tools.

Local Open Scope string_scope.

(** [bytearray([val] * length)] *)
Definition generate_bytearray_of_length (val length : Z) : result (list Z) :=
  Header.bytearray_of (replicate (Z.to_nat length) val).

(** [hex(n)] for an integer. *)
Definition hex (n : Z) : string :=
  (if (n <? 0)%Z then "-" else EmptyString)
    ++ "0x" ++ HexadecimalString.NilZero.string_of_uint (N.to_hex_uint (Z.abs_N n)).

(** [for i in range(len(bytearray1)): ...] of [bytearray_differences]. *)
Fixpoint differences_loop (bytearray1 bytearray2 : list Z) (range : list nat)
    (num_difs : Z) (text : string) : result (Z * string) :=
  match range with
  | [] => Ok (num_difs, text)
  | i :: range' =>
      a ← getitem bytearray1 i;
      b ← getitem bytearray2 i;
      if negb (a =? b)%Z then
        differences_loop bytearray1 bytearray2 range' (num_difs + 1)%Z
          (text ++ "Difference at index " ++ Header.str (Z.of_nat i) ++ ": "
             ++ hex a ++ " != " ++ hex b ++ Header.newline)
      else differences_loop bytearray1 bytearray2 range' num_difs text
  end.

Definition bytearray_differences (bytearray1 bytearray2 : list Z) : result string :=
  let text := EmptyString in
  let text :=
    if negb (length bytearray1 =? length bytearray2)%nat
    then text ++ "Bytearrays must be of the same length." ++ Header.newline
    else text in
  '(num_difs, text) ←
    differences_loop bytearray1 bytearray2 (seq 0 (length bytearray1)) 0%Z text;
  Ok (if (num_difs =? 0)%Z then "No differences found!"
      else Header.str num_difs ++ " differences found:" ++ Header.newline ++ text).

End Tools.

(** ** The batch loops of [main] *)

Module Main.

Import Packaging.

Local Open Scope string_scope.

(** [s.endswith(suffix)] *)
Definition endswith (s suffix : string) : bool :=
  let n := String.length s in
  let m := String.length suffix in
  (m <=? n)%nat && String.eqb (String.substring (n - m) m s) suffix.

(** One file of the assets directory as the loop sees it: its name, what
    [read_image] returns for it and the bytes read from it. *)
Record asset : Type := Asset {
  file_name : string;
  decoded : list Z;
  decoded_width : Z;
  decoded_height : Z;
  raw_png_data : list Z
}.

(** The state of the packaging loop (lines 233-278). *)
Record totals : Type := Totals {
  image_data_map : list (string * entry);
  bytes_saved : Z;
  original_size : Z
}.

(** One pass of [for file_name in os.listdir(assets_dir)] (lines 248-278). *)
Definition package_step (ALPHA_ONLY : bool) (st : totals) (f : asset) : result totals :=
  if endswith (file_name f) ".png" then
    let image_data := decoded f in
    let orig_size := Z.of_nat (length image_data) in
    let saved := 0%Z in
    e ← package_image ALPHA_ONLY image_data (decoded_width f) (decoded_height f)
          (raw_png_data f);
    let original_size := (original_size st + orig_size)%Z in
    let saved := (saved + (orig_size - Z.of_nat (length (Packaging.image_data e))))%Z in
    let bytes_saved := (bytes_saved st + saved)%Z in
    Ok (Totals (Header.dict_set (image_data_map st) (file_name f) e)
          bytes_saved original_size)
  else Ok st.

Fixpoint package_loop (ALPHA_ONLY : bool) (st : totals) (files : list asset)
  : result totals :=
  match files with
  | [] => Ok st
  | f :: files' =>
      st ← package_step ALPHA_ONLY st f;
      package_loop ALPHA_ONLY st files'
  end.

Definition package_all (ALPHA_ONLY : bool) (files : list asset) : result totals :=
  package_loop ALPHA_ONLY (Totals [] 0%Z 0%Z) files.

(** What the verification loop hands on for one record: pixels for
    [Image.frombytes('RGBA', (width, height), ...)] or bytes for the file. *)
Inductive written : Type :=
  | SaveImage (width height : Z) (rgba : list Z)
  | WriteFile (data : list Z).

(** One pass of the verification loop (lines 292-314). *)
Definition reconstruct (ALPHA_ONLY : bool) (file_data : entry) : result written :=
  let image_data := Packaging.image_data file_data in
  let is_raw_png := Packaging.is_raw_png file_data in
  if negb is_raw_png then
    image_data ← RLE.rle_decompress image_data;
    image_data ←
      (if ALPHA_ONLY then Alpha.alpha_vals_to_image_data image_data
       else Ok image_data);
    let width := Packaging.width file_data in
    let height := Packaging.height file_data in
    let expected_length := (width * height * 4)%Z in
    if negb (Z.of_nat (length image_data) =? expected_length)%Z
    then Raise ValueError
    else Ok (SaveImage width height image_data)
  else Ok (WriteFile image_data).

End Main.

(** * Properties *)

Local Open Scope Z_scope.

(** ** Byte-array primitives *)

Lemma bind_Ok {A B : Type} (a : A) (k : A → result B) : (Ok a ≫= k) = k a.
Proof. reflexivity. Qed.

Lemma is_byte_true v : 0 ≤ v < 256 → is_byte v = true.
Proof. unfold is_byte. intros. apply andb_true_iff. lia. Qed.

Lemma is_byte_spec v : is_byte v = true ↔ 0 ≤ v < 256.
Proof. unfold is_byte. rewrite andb_true_iff. lia. Qed.

Lemma is_bytearray_lookup b i v : is_bytearray b → b !! i = Some v → 0 ≤ v < 256.
Proof. intros Hb Hi. exact (proj1 (Forall_lookup _ _) Hb i v Hi). Qed.

Lemma getitem_Some b i v : b !! i = Some v → getitem b i = Ok v.
Proof. unfold getitem. by intros ->. Qed.

Lemma getitem_None b i : b !! i = None → getitem b i = Raise IndexError.
Proof. unfold getitem. by intros ->. Qed.

Lemma ba_append_ok b v : 0 ≤ v < 256 → ba_append b v = Ok (b ++ [v]).
Proof. intros. unfold ba_append. by rewrite is_byte_true. Qed.

Lemma ba_extend_ok b vs : is_bytearray vs → ba_extend b vs = Ok (b ++ vs).
Proof.
  intros Hvs. unfold ba_extend.
  replace (forallb is_byte vs) with true; [done|].
  symmetry. apply forallb_forall. intros v Hv.
  apply is_byte_true. unfold is_bytearray in Hvs.
  rewrite Forall_forall in Hvs. apply Hvs. by apply list_elem_of_In.
Qed.

Lemma is_bytearray_replicate n v : 0 ≤ v < 256 → is_bytearray (replicate n v).
Proof. intros. by apply Forall_replicate. Qed.

(** ** Run-length codec *)

Section compress.
Import RLE.
Variable data : list Z.
Hypothesis data_bytes : is_bytearray data.

(** The inner loop returns the length of a block of equal bytes that
    starts at [i], stopped by the cap or by a different byte. *)
Lemma run_count_spec (i max_count : nat) (v : Z) :
  data !! i = Some v →
  (i + max_count ≤ length data)%nat →
  ∀ fuel count,
    (1 ≤ count ≤ max_count)%nat →
    (max_count - count < fuel)%nat →
    (∀ k, (k < count)%nat → data !! (i + k)%nat = Some v) →
    ∃ c, run_count fuel data i max_count count = Ok c
         ∧ (count ≤ c ≤ max_count)%nat
         ∧ (∀ k, (k < c)%nat → data !! (i + k)%nat = Some v)
         ∧ (c = max_count ∨ data !! (i + c)%nat ≠ Some v).
Proof.
  intros Hi Hlen. induction fuel as [|fuel IH]; intros count Hc Hfuel Hrun.
  { lia. }
  simpl. destruct (Nat.ltb_spec count max_count) as [Hlt|Hge].
  - rewrite (getitem_Some _ _ _ Hi), bind_Ok.
    destruct (lookup_lt_is_Some_2 data (i + count)) as [b Hb]; [lia|].
    rewrite (getitem_Some _ _ _ Hb), bind_Ok.
    destruct (Z.eqb_spec v b) as [<-|Hne].
    + assert (∀ k, (k < count + 1)%nat → data !! (i + k)%nat = Some v) as Hrun'.
      { intros k Hk. destruct (decide (k = count)) as [->|]; [done|].
        apply Hrun. lia. }
      destruct (IH (count + 1)%nat ltac:(lia) ltac:(lia) Hrun')
        as (c & Hrc & Hcc & Hall & Hstop).
      exists c. repeat split; try done; lia.
    + exists count. repeat split; try done; try lia.
      right. rewrite Hb. congruence.
  - exists count. repeat split; try done; lia.
Qed.

Lemma drop_block (i c : nat) (v : Z) :
  (∀ k, (k < c)%nat → data !! (i + k)%nat = Some v) →
  drop i data = replicate c v ++ drop (i + c) data.
Proof.
  induction c as [|c IH]; intros Hrun.
  - by rewrite Nat.add_0_r.
  - rewrite IH by (intros; apply Hrun; lia).
    rewrite (drop_S data v (i + c)) by (apply Hrun; lia).
    rewrite replicate_S_end, <- app_assoc. simpl.
    by rewrite Nat.add_succ_r.
Qed.

(** One pass of the outer loop. *)
Lemma compress_loop_step (fuel len i : nat) (out : list Z) :
  (i < len)%nat →
  compress_loop (S fuel) data len i out =
    let max_count := (255 `min` (len - i))%nat in
    count ← run_count max_count data i max_count 1;
    compressed_data ←
      (if (2 <? count)%nat then
         d ← getitem data i;
         ba_extend out [2; Z.of_nat count; d]
       else
         d ← getitem data i;
         compressed_data ← ba_append out d;
         if (count =? 2)%nat then
           d1 ← getitem data (i + 1);
           ba_append compressed_data d1
         else Ok compressed_data);
    compress_loop fuel data len (i + count) compressed_data.
Proof.
  intros Hlt. change (compress_loop (S fuel) data len i out) with
    (if (i <? len)%nat then
       let max_count := (255 `min` (len - i))%nat in
       count ← run_count max_count data i max_count 1;
       compressed_data ←
         (if (2 <? count)%nat then
            d ← getitem data i;
            ba_extend out [2; Z.of_nat count; d]
          else
            d ← getitem data i;
            compressed_data ← ba_append out d;
            if (count =? 2)%nat then
              d1 ← getitem data (i + 1);
              ba_append compressed_data d1
            else Ok compressed_data);
       compress_loop fuel data len (i + count) compressed_data
     else Ok out).
  by rewrite (proj2 (Nat.ltb_lt _ _) Hlt).
Qed.

Lemma compress_loop_done (fuel len i : nat) (out : list Z) :
  (len ≤ i)%nat → compress_loop (S fuel) data len i out = Ok out.
Proof.
  intros Hge. change (compress_loop (S fuel) data len i out) with
    (if (i <? len)%nat then
       let max_count := (255 `min` (len - i))%nat in
       count ← run_count max_count data i max_count 1;
       compressed_data ←
         (if (2 <? count)%nat then
            d ← getitem data i;
            ba_extend out [2; Z.of_nat count; d]
          else
            d ← getitem data i;
            compressed_data ← ba_append out d;
            if (count =? 2)%nat then
              d1 ← getitem data (i + 1);
              ba_append compressed_data d1
            else Ok compressed_data);
       compress_loop fuel data len (i + count) compressed_data
     else Ok out).
  by rewrite (proj2 (Nat.ltb_ge _ _) Hge).
Qed.

(** The first run of a non-empty list of runs gives the head byte. *)
Lemma runs_head (r : Z * nat) (runs : list (Z * nat)) (j : nat) :
  (1 ≤ r.2)%nat →
  drop j data = flat_map run_bytes (r :: runs) →
  data !! j = Some r.1.
Proof.
  intros Hn Hdrop. rewrite <- (Nat.add_0_r j), <- lookup_drop, Hdrop.
  destruct r as [v [|n]]; simpl in *; [lia|done].
Qed.

(** The outer loop: from position [i] on, the loop splits the rest of
    the input into greedy runs of 1 to 255 bytes and appends the code
    of each to its output. *)
Lemma compress_loop_spec (fuel i : nat) (out : list Z) :
  (i ≤ length data)%nat →
  (length data - i < fuel)%nat →
  ∃ runs,
    compress_loop fuel data (length data) i out
      = Ok (out ++ flat_map run_code runs)
    ∧ drop i data = flat_map run_bytes runs
    ∧ Forall (λ r, 1 ≤ r.2 ≤ 255)%nat runs
    ∧ maximal runs.
Proof.
  revert i out. induction fuel as [|fuel IH]; intros i out Hi Hfuel; [lia|].
  destruct (Nat.lt_ge_cases i (length data)) as [Hlt|Hge].
  2:{ exists []. rewrite compress_loop_done by done. simpl.
      rewrite app_nil_r, drop_ge by lia. by repeat split. }
  rewrite compress_loop_step by done. cbv zeta.
  destruct (lookup_lt_is_Some_2 data i Hlt) as [v Hv].
  pose proof (is_bytearray_lookup _ _ _ data_bytes Hv) as Hvb.
  set (mc := (255 `min` (length data - i))%nat).
  assert (∀ k, (k < 1)%nat → data !! (i + k)%nat = Some v) as Hone.
  { intros k Hk. replace (i + k)%nat with i by lia. done. }
  destruct (run_count_spec i mc v Hv ltac:(lia) mc 1%nat ltac:(lia) ltac:(lia) Hone)
    as (c & -> & Hc & Hrun & Hstop).
  rewrite bind_Ok, (getitem_Some _ _ _ Hv).
  pose proof (drop_block i c v Hrun) as Hdrop.
  (* what one pass of the loop appends *)
  assert ((if (2 <? c)%nat
           then d ← Ok v; ba_extend out [2; Z.of_nat c; d]
           else d ← Ok v; compressed_data ← ba_append out d;
                if (c =? 2)%nat
                then d1 ← getitem data (i + 1); ba_append compressed_data d1
                else Ok compressed_data)
          = Ok (out ++ run_code (v, c))) as ->.
  { unfold run_code. simpl. destruct (Nat.ltb_spec 2 c) as [H2|H2].
    - rewrite ba_extend_ok; [done|].
      repeat constructor; lia.
    - rewrite ba_append_ok, bind_Ok by done.
      destruct (Nat.eqb_spec c 2) as [->|Hc2].
      + rewrite (getitem_Some _ _ v) by (apply Hrun; lia).
        rewrite bind_Ok, ba_append_ok by done. by rewrite <- app_assoc.
      + by replace c with 1%nat by lia. }
  rewrite bind_Ok.
  destruct (IH (i + c)%nat (out ++ run_code (v, c)) ltac:(lia) ltac:(lia))
    as (runs & -> & Hrest & Hlens & Hmax).
  exists ((v, c) :: runs). split; [|split; [|split]].
  - simpl. by rewrite <- app_assoc.
  - by rewrite Hdrop, Hrest.
  - constructor; [simpl; lia|done].
  - destruct runs as [|r' runs']; [done|]. split; [|done]. simpl.
    destruct Hstop as [->|Hne].
    + destruct (Nat.min_spec 255 (length data - i)) as [[_ Hm]|[_ Hm]];
        [left; by fold mc in Hm|].
      exfalso. fold mc in Hm.
      assert (data !! (i + mc)%nat = Some r'.1) as Hin.
      { apply (runs_head r' runs'); [|done].
        by apply Forall_cons_1 in Hlens as [[? _] _]. }
      apply lookup_lt_Some in Hin. lia.
    + right. intros ->. apply Hne.
      apply (runs_head r' runs'); [|done].
      by apply Forall_cons_1 in Hlens as [[? _] _].
Qed.

End compress.

Section decompress.
Import RLE.

Lemma run_code_long (v : Z) (n : nat) :
  (2 < n)%nat → run_code (v, n) = [2; Z.of_nat n; v].
Proof. intros H. unfold run_code. simpl. by rewrite (proj2 (Nat.ltb_lt _ _) H). Qed.

Lemma run_code_short (v : Z) (n : nat) :
  (n ≤ 2)%nat → run_code (v, n) = replicate n v.
Proof. intros H. unfold run_code. simpl. by rewrite (proj2 (Nat.ltb_ge _ _) H). Qed.

Lemma decompress_loop_done (fuel : nat) (c : list Z) (i : nat) (acc : list Z) :
  (length c ≤ i)%nat → decompress_loop (S fuel) c i acc = Ok acc.
Proof.
  intros Hge. simpl. by rewrite (proj2 (Nat.ltb_ge _ _) Hge).
Qed.

(** A byte other than the marker is copied. *)
Lemma decompress_loop_literal (fuel : nat) (c : list Z) (i : nat) (acc : list Z) (b : Z) :
  c !! i = Some b → b ≠ 2 → 0 ≤ b < 256 →
  decompress_loop (S fuel) c i acc = decompress_loop fuel c (i + 1) (acc ++ [b]).
Proof.
  intros Hb Hne Hbyte. simpl.
  rewrite (proj2 (Nat.ltb_lt _ _) (lookup_lt_Some _ _ _ Hb)).
  rewrite (getitem_Some _ _ _ Hb), bind_Ok.
  rewrite (proj2 (Z.eqb_neq _ _) Hne).
  by rewrite ba_append_ok, bind_Ok.
Qed.

(** The marker and the two bytes after it are replaced by the run. *)
Lemma decompress_loop_run (fuel : nat) (c : list Z) (i : nat) (acc : list Z) (n v : Z) :
  c !! i = Some 2 → c !! (i + 1)%nat = Some n → c !! (i + 2)%nat = Some v →
  0 ≤ v < 256 →
  decompress_loop (S fuel) c i acc
    = decompress_loop fuel c (i + 3) (acc ++ replicate (Z.to_nat n) v).
Proof.
  intros Hm Hn Hv Hbyte. simpl.
  rewrite (proj2 (Nat.ltb_lt _ _) (lookup_lt_Some _ _ _ Hm)).
  rewrite (getitem_Some _ _ _ Hm), bind_Ok. simpl.
  rewrite (getitem_Some _ _ _ Hn), bind_Ok.
  rewrite (getitem_Some _ _ _ Hv), bind_Ok.
  by rewrite ba_extend_ok, bind_Ok by by apply is_bytearray_replicate.
Qed.

(** A marker with fewer than two bytes after it raises [IndexError]. *)
Lemma decompress_loop_truncated (fuel : nat) (c : list Z) (i : nat) (acc : list Z) :
  c !! i = Some 2 → (length c ≤ i + 2)%nat →
  decompress_loop (S fuel) c i acc = Raise IndexError.
Proof.
  intros Hm Hlen. simpl.
  rewrite (proj2 (Nat.ltb_lt _ _) (lookup_lt_Some _ _ _ Hm)).
  rewrite (getitem_Some _ _ _ Hm), bind_Ok. simpl.
  destruct (c !! (i + 1)%nat) as [n|] eqn:Hn.
  - rewrite (getitem_Some _ _ _ Hn), bind_Ok.
    by rewrite getitem_None by (apply lookup_ge_None; lia).
  - by rewrite (getitem_None _ _ Hn).
Qed.

(** Decoding the code of a list of runs whose values are bytes other
    than the marker gives back the bytes of the runs. *)
Lemma decompress_runs (runs : list (Z * nat)) :
  Forall (λ r, 0 ≤ r.1 < 256 ∧ r.1 ≠ 2 ∧ (1 ≤ r.2 ≤ 255)%nat) runs →
  ∀ pre acc fuel,
    (length (flat_map run_code runs) < fuel)%nat →
    decompress_loop fuel (pre ++ flat_map run_code runs) (length pre) acc
      = Ok (acc ++ flat_map run_bytes runs).
Proof.
  induction 1 as [|[v n] runs (Hv & Hv2 & Hn) _ IH]; intros pre acc fuel Hfuel.
  { destruct fuel; [simpl in Hfuel; lia|].
    rewrite decompress_loop_done by (rewrite length_app; simpl; lia).
    by rewrite app_nil_r. }
  change (flat_map run_code ((v, n) :: runs))
    with (run_code (v, n) ++ flat_map run_code runs) in *.
  change (flat_map run_bytes ((v, n) :: runs))
    with (replicate n v ++ flat_map run_bytes runs).
  rewrite length_app in Hfuel. simpl in Hv, Hv2, Hn.
  rewrite (app_assoc pre), (app_assoc acc).
  assert (∀ k b, run_code (v, n) !! k = Some b →
                 ((pre ++ run_code (v, n)) ++ flat_map run_code runs)
                   !! (length pre + k)%nat = Some b) as Hat.
  { intros k b Hk. rewrite <- app_assoc, lookup_app_r by lia.
    replace (length pre + k - length pre)%nat with k by lia.
    by apply lookup_app_l_Some. }
  destruct (Nat.lt_ge_cases 2 n) as [H2|H2].
  - rewrite run_code_long in * by done.
    destruct fuel as [|fuel]; [simpl in Hfuel; lia|].
    rewrite (decompress_loop_run _ _ _ _ (Z.of_nat n) v); try done.
    + rewrite Nat2Z.id.
      replace (length pre + 3)%nat with (length (pre ++ [2; Z.of_nat n; v]))
        by (rewrite length_app; simpl; lia).
      apply IH. simpl in Hfuel. lia.
    + rewrite <- (Nat.add_0_r (length pre)). by apply Hat.
    + by apply Hat.
    + by apply Hat.
  - rewrite run_code_short in * by done.
    assert (n = 1 ∨ n = 2)%nat as [-> | ->] by lia; simpl in Hfuel, Hat |- *.
    + destruct fuel as [|fuel]; [lia|].
      rewrite (decompress_loop_literal _ _ _ _ v); try done.
      2:{ rewrite <- (Nat.add_0_r (length pre)). by apply Hat. }
      replace (length pre + 1)%nat with (length (pre ++ [v]))
        by (rewrite length_app; simpl; lia).
      apply IH. lia.
    + destruct fuel as [|[|fuel]]; [lia|lia|].
      rewrite (decompress_loop_literal _ _ _ _ v); try done.
      2:{ rewrite <- (Nat.add_0_r (length pre)). by apply Hat. }
      rewrite (decompress_loop_literal _ _ _ _ v); try done.
      2:{ by apply Hat. }
      rewrite <- (app_assoc acc [v] [v]). simpl.
      replace (length pre + 1 + 1)%nat with (length (pre ++ [v; v]))
        by (rewrite length_app; simpl; lia).
      apply IH. lia.
Qed.

End decompress.

Section codec.
Import RLE.

(** The values of runs that are not empty occur in their bytes. *)
Lemma runs_values (P : Z → Prop) (runs : list (Z * nat)) :
  Forall (λ r, 1 ≤ r.2 ≤ 255)%nat runs →
  Forall P (flat_map run_bytes runs) →
  Forall (λ r, P r.1) runs.
Proof.
  induction 1 as [|[v n] runs Hn _ IH]; intros HP; [constructor|].
  simpl in HP. apply Forall_app in HP as [Hhd Htl].
  constructor; [|by apply IH].
  unfold run_bytes in Hhd. simpl in *.
  destruct n; [lia|]. by apply Forall_cons_1 in Hhd as [? _].
Qed.

(** The compressor's result on any bytearray, by runs. *)
Lemma rle_compress_runs (data : list Z) :
  is_bytearray data →
  ∃ runs,
    rle_compress data = Ok (flat_map run_code runs)
    ∧ data = flat_map run_bytes runs
    ∧ Forall (λ r, 1 ≤ r.2 ≤ 255)%nat runs
    ∧ maximal runs.
Proof.
  intros Hb.
  destruct (compress_loop_spec data Hb (S (length data)) 0 [] ltac:(lia) ltac:(lia))
    as (runs & Hc & Hd & Hn & Hm).
  exists runs. by rewrite drop_0 in Hd.
Qed.

(** The decompressor on the code of runs free of the marker. *)
Lemma rle_decompress_runs (runs : list (Z * nat)) :
  Forall (λ r, 0 ≤ r.1 < 256 ∧ r.1 ≠ 2 ∧ (1 ≤ r.2 ≤ 255)%nat) runs →
  rle_decompress (flat_map run_code runs) = Ok (flat_map run_bytes runs).
Proof.
  intros Hruns. unfold rle_decompress.
  apply (decompress_runs runs Hruns [] []). lia.
Qed.

(** Compression of an input free of the marker, then decompression. *)
Lemma rle_compress_decompress (x : list Z) :
  is_bytearray x → 2 ∉ x →
  ∃ runs,
    rle_compress x = Ok (flat_map run_code runs)
    ∧ x = flat_map run_bytes runs
    ∧ Forall (λ r, 0 ≤ r.1 < 256 ∧ r.1 ≠ 2 ∧ (1 ≤ r.2 ≤ 255)%nat) runs
    ∧ rle_decompress (flat_map run_code runs) = Ok x.
Proof.
  intros Hb H2.
  destruct (rle_compress_runs x Hb) as (runs & Hc & Hx & Hn & _).
  assert (Forall (λ r, 0 ≤ r.1 < 256 ∧ r.1 ≠ 2 ∧ (1 ≤ r.2 ≤ 255)%nat) runs) as Hruns.
  { assert (Forall (λ v, 0 ≤ v < 256 ∧ v ≠ 2) x) as Hall.
    { apply Forall_forall. intros v Hv. split.
      - unfold is_bytearray in Hb. rewrite Forall_forall in Hb. by apply Hb.
      - by intros ->. }
    rewrite Hx in Hall. apply (runs_values _ _ Hn) in Hall.
    rewrite Forall_forall in Hall, Hn. apply Forall_forall.
    intros r Hr. specialize (Hall r Hr). specialize (Hn r Hr).
    simpl in Hall. tauto. }
  exists runs. repeat split; try done.
  rewrite (rle_decompress_runs runs Hruns). by rewrite <- Hx.
Qed.

(** In the code of runs free of the marker, a byte 2 is always the
    first byte of a triple. *)
Lemma run_code_markers (runs : list (Z * nat)) :
  Forall (λ r, 0 ≤ r.1 < 256 ∧ r.1 ≠ 2 ∧ (1 ≤ r.2 ≤ 255)%nat) runs →
  ∀ j, flat_map run_code runs !! j = Some 2 →
    ∃ n v, flat_map run_code runs !! (j + 1)%nat = Some n
           ∧ flat_map run_code runs !! (j + 2)%nat = Some v
           ∧ 3 ≤ n ≤ 255 ∧ v ≠ 2.
Proof.
  induction 1 as [|[v n] runs (Hv & Hv2 & Hn) _ IH]; intros j Hj; [done|].
  change (flat_map run_code ((v, n) :: runs))
    with (run_code (v, n) ++ flat_map run_code runs) in *.
  simpl in Hv, Hv2, Hn.
  destruct (Nat.lt_ge_cases j (length (run_code (v, n)))) as [Hin|Hout].
  - rewrite lookup_app_l in Hj by done.
    destruct (Nat.lt_ge_cases 2 n) as [H2|H2].
    + rewrite run_code_long in * by done.
      destruct j as [|[|[|j]]]; simpl in *; try lia.
      * exists (Z.of_nat n), v. repeat split; try done; lia.
      * injection Hj as Hj. lia.
      * congruence.
    + rewrite run_code_short in * by done.
      apply lookup_replicate in Hj as [Hj _]. congruence.
  - rewrite lookup_app_r in Hj by done.
    destruct (IH _ Hj) as (m & w & Hm & Hw & Hrange).
    exists m, w. split; [|split; [|done]].
    + rewrite lookup_app_r by lia. rewrite <- Hm. f_equal. lia.
    + rewrite lookup_app_r by lia. rewrite <- Hw. f_equal. lia.
Qed.

(** If a prefix decodes on its own, the decoder reaches the byte after
    it; a marker there with fewer than two bytes after it is an error. *)
Lemma decompress_prefix_truncated (pre tail y : list Z) :
  (length tail < 2)%nat →
  ∀ fuel i acc fuel',
    decompress_loop fuel pre i acc = Ok y →
    (i ≤ length pre)%nat →
    decompress_loop (fuel + S fuel') (pre ++ 2 :: tail) i acc = Raise IndexError.
Proof.
  intros Htail. induction fuel as [|fuel IH]; intros i acc fuel' Hrun Hi; [done|].
  destruct (Nat.lt_ge_cases i (length pre)) as [Hlt|Hge].
  - destruct (lookup_lt_is_Some_2 pre i Hlt) as [b Hb].
    simpl in Hrun. rewrite (proj2 (Nat.ltb_lt _ _) Hlt) in Hrun.
    rewrite (getitem_Some _ _ _ Hb), bind_Ok in Hrun.
    change (S fuel + S fuel')%nat with (S (fuel + S fuel')).
    destruct (Z.eqb_spec b 2) as [Heq|Hne]; [subst b|].
    + destruct (pre !! (i + 1)%nat) as [n|] eqn:Hn;
        [|by rewrite (getitem_None _ _ Hn) in Hrun].
      destruct (pre !! (i + 2)%nat) as [v|] eqn:Hv;
        [|by rewrite (getitem_Some _ _ _ Hn), (getitem_None _ _ Hv) in Hrun].
      rewrite (getitem_Some _ _ _ Hn), (getitem_Some _ _ _ Hv), !bind_Ok in Hrun.
      unfold ba_extend in Hrun.
      destruct (forallb is_byte (replicate (Z.to_nat n) v)) eqn:Hbytes; [|done].
      rewrite bind_Ok in Hrun.
      pose proof (lookup_lt_Some _ _ _ Hv).
      simpl. rewrite length_app.
      rewrite (proj2 (Nat.ltb_lt i _)) by lia.
      rewrite (getitem_Some (pre ++ 2 :: tail) i 2)
        by by apply lookup_app_l_Some.
      rewrite bind_Ok. simpl.
      rewrite (getitem_Some (pre ++ 2 :: tail) (i + 1) n)
        by by apply lookup_app_l_Some.
      rewrite (getitem_Some (pre ++ 2 :: tail) (i + 2) v)
        by by apply lookup_app_l_Some.
      rewrite !bind_Ok. unfold ba_extend. rewrite Hbytes, bind_Ok.
      apply IH; [done|lia].
    + unfold ba_append in Hrun.
      destruct (is_byte b) eqn:Hbyte; [|done].
      rewrite bind_Ok in Hrun.
      simpl. rewrite length_app.
      rewrite (proj2 (Nat.ltb_lt i _)) by lia.
      rewrite (getitem_Some (pre ++ 2 :: tail) i b)
        by by apply lookup_app_l_Some.
      rewrite bind_Ok, (proj2 (Z.eqb_neq _ _) Hne).
      unfold ba_append. rewrite Hbyte, bind_Ok.
      apply IH; [done|lia].
  - change (S fuel + S fuel')%nat with (S (fuel + S fuel')).
    apply decompress_loop_truncated.
    + assert (i = length pre) as -> by lia.
      by rewrite lookup_app_r, Nat.sub_diag by lia.
    + rewrite length_app. simpl. lia.
Qed.

End codec.

(** ** The codec claims *)

(** C1. For every byte sequence [x] with no byte equal to 2, compressing
    [x] succeeds and decompressing the result returns [x] exactly. *)
Theorem rle_roundtrip (x : list Z) :
  is_bytearray x → 2 ∉ x →
  ∃ c, RLE.rle_compress x = Ok c ∧ RLE.rle_decompress c = Ok x.
Proof.
  intros Hb H2.
  destruct (rle_compress_decompress x Hb H2) as (runs & Hc & _ & _ & Hd).
  by exists (flat_map RLE.run_code runs).
Qed.

Lemma rle_roundtrip_witness :
  ∃ c, RLE.rle_compress [7; 7; 7; 7; 0; 9; 9] = Ok c
       ∧ RLE.rle_decompress c = Ok [7; 7; 7; 7; 0; 9; 9].
Proof.
  apply (rle_roundtrip [7; 7; 7; 7; 0; 9; 9]).
  - repeat constructor; lia.
  - rewrite !not_elem_of_cons. repeat split; try lia. apply not_elem_of_nil.
Defined.

(** C4. [rle_compress [5,5]] is the two literal bytes [5,5] and
    [rle_compress [5,5,5]] is [2,3,5]. In general the input is cut into
    greedy runs of 1 to 255 equal bytes and the output is the
    concatenation of their codes: a run of length 1 or 2 is written as
    its own bytes, a run of length [n >= 3] as the triple [2, n, value]
    with [n] in [3, 255]. *)
Theorem rle_compress_run_threshold (data : list Z) :
  is_bytearray data →
  RLE.rle_compress [5; 5] = Ok [5; 5]
  ∧ RLE.rle_compress [5; 5; 5] = Ok [2; 3; 5]
  ∧ ∃ runs,
      RLE.rle_compress data = Ok (flat_map RLE.run_code runs)
      ∧ data = flat_map RLE.run_bytes runs
      ∧ RLE.maximal runs
      ∧ Forall (λ r,
          ((1 ≤ r.2 ≤ 2)%nat ∧ RLE.run_code r = replicate r.2 r.1)
          ∨ (3 ≤ Z.of_nat r.2 ≤ 255 ∧ RLE.run_code r = [2; Z.of_nat r.2; r.1]))
          runs.
Proof.
  intros Hb. split; [reflexivity|]. split; [reflexivity|].
  destruct (rle_compress_runs data Hb) as (runs & Hc & Hd & Hn & Hm).
  exists runs. repeat split; try done.
  eapply Forall_impl; [exact Hn|]. intros [v n] Hr. simpl in Hr.
  destruct (Nat.lt_ge_cases 2 n).
  - right. split; [simpl; lia|]. by apply run_code_long.
  - left. split; [simpl; lia|]. by apply run_code_short.
Qed.

Lemma rle_compress_run_threshold_witness :
  RLE.rle_compress [5; 5] = Ok [5; 5]
  ∧ RLE.rle_compress [5; 5; 5] = Ok [2; 3; 5]
  ∧ ∃ runs,
      RLE.rle_compress [1; 1; 4; 4; 4; 4; 8] = Ok (flat_map RLE.run_code runs)
      ∧ [1; 1; 4; 4; 4; 4; 8] = flat_map RLE.run_bytes runs
      ∧ RLE.maximal runs
      ∧ Forall (λ r,
          ((1 ≤ r.2 ≤ 2)%nat ∧ RLE.run_code r = replicate r.2 r.1)
          ∨ (3 ≤ Z.of_nat r.2 ≤ 255 ∧ RLE.run_code r = [2; Z.of_nat r.2; r.1]))
          runs.
Proof.
  apply (rle_compress_run_threshold [1; 1; 4; 4; 4; 4; 8]).
  repeat constructor; lia.
Defined.

(** C8. When the decoder reaches a marker byte 2 that has fewer than two
    bytes after it, [rle_decompress] raises [IndexError]: it reads
    nothing out of bounds and returns no result. The decoder reaches the
    marker exactly when the bytes before it decode on their own. *)
Theorem rle_decompress_truncated (pre tail y : list Z) :
  RLE.rle_decompress pre = Ok y →
  (length tail < 2)%nat →
  RLE.rle_decompress (pre ++ 2 :: tail) = Raise IndexError.
Proof.
  intros Hpre Htail. unfold RLE.rle_decompress in *.
  rewrite length_app. simpl.
  replace (S (length pre + S (length tail)))
    with (S (length pre) + S (length tail))%nat by lia.
  apply (decompress_prefix_truncated pre tail y Htail _ _ _ _ Hpre). lia.
Qed.

(** A 2 that the decoder reads as the count or the value of a run is
    not a marker, whatever follows it. *)
Example rle_decompress_value_two :
  RLE.rle_decompress [2; 3; 2] = Ok [2; 2; 2]
  ∧ RLE.rle_decompress [7; 2; 2; 9] = Ok [7; 9; 9].
Proof. split; reflexivity. Qed.

Lemma rle_decompress_truncated_witness :
  RLE.rle_decompress ([7; 2; 4; 9; 0] ++ 2 :: [3]) = Raise IndexError.
Proof.
  apply (rle_decompress_truncated [7; 2; 4; 9; 0] [3] [7; 9; 9; 9; 9; 0]).
  - reflexivity.
  - simpl. lia.
Defined.

(** C10. For every input [x] with no byte equal to 2, the output of
    [rle_compress] is well formed: every byte 2 in it is followed, inside
    the output, by a count in [3, 255] and a value other than 2. On such
    an output [rle_decompress] returns a result, so it never indexes past
    the end of its argument. *)
Theorem rle_compress_well_formed (x : list Z) :
  is_bytearray x → 2 ∉ x →
  ∃ c, RLE.rle_compress x = Ok c
       ∧ (∀ j, c !! j = Some 2 →
            (j + 2 < length c)%nat
            ∧ ∃ n v, c !! (j + 1)%nat = Some n ∧ c !! (j + 2)%nat = Some v
                     ∧ 3 ≤ n ≤ 255 ∧ v ≠ 2)
       ∧ RLE.rle_decompress c ≠ Raise IndexError
       ∧ ∃ y, RLE.rle_decompress c = Ok y.
Proof.
  intros Hb H2.
  destruct (rle_compress_decompress x Hb H2) as (runs & Hc & _ & Hruns & Hd).
  exists (flat_map RLE.run_code runs). split; [done|]. split; [|split].
  - intros j Hj.
    destruct (run_code_markers runs Hruns j Hj) as (n & v & Hn & Hv & Hrange).
    split; [by apply lookup_lt_Some in Hv|]. by exists n, v.
  - by rewrite Hd.
  - by exists x.
Qed.

Lemma rle_compress_well_formed_witness :
  ∃ c, RLE.rle_compress [3; 3; 3; 1; 1; 6] = Ok c
       ∧ (∀ j, c !! j = Some 2 →
            (j + 2 < length c)%nat
            ∧ ∃ n v, c !! (j + 1)%nat = Some n ∧ c !! (j + 2)%nat = Some v
                     ∧ 3 ≤ n ≤ 255 ∧ v ≠ 2)
       ∧ RLE.rle_decompress c ≠ Raise IndexError
       ∧ ∃ y, RLE.rle_decompress c = Ok y.
Proof.
  apply (rle_compress_well_formed [3; 3; 3; 1; 1; 6]).
  - repeat constructor; lia.
  - rewrite !not_elem_of_cons. repeat split; try lia. apply not_elem_of_nil.
Defined.

(** ** Alpha transform *)

Section alpha.
Import Alpha.

(** A slice whose lookups all succeed lists them in order. *)
Lemma omap_seq_lookup {A : Type} (f : nat → option A) (n s k : nat) :
  (∀ j, (s ≤ j < s + n)%nat → is_Some (f j)) →
  omap f (seq s n) !! k = if decide (k < n)%nat then f (s + k)%nat else None.
Proof.
  revert s k. induction n as [|n IH]; intros s k Hall.
  { simpl. by destruct (decide (k < 0)%nat); [lia|]. }
  simpl. destruct (Hall s ltac:(lia)) as [a Ha]. rewrite Ha.
  destruct k as [|k]; simpl.
  - by rewrite Nat.add_0_r, Ha.
  - rewrite IH by (intros; apply Hall; lia).
    replace (S s + k)%nat with (s + S k)%nat by lia.
    destruct (decide (k < n)%nat), (decide (S k < S n)%nat); done || lia.
Qed.

(** Item [j] of the alpha channel is byte [3 + 4 j] of the image. *)
Lemma get_alpha_values_lookup (image_data : list Z) (j : nat) :
  get_alpha_values image_data !! j = image_data !! (3 + j * 4)%nat.
Proof.
  unfold get_alpha_values, slice_from_step.
  set (len := length image_data).
  destruct (Nat.ltb_spec 3 len) as [Hlt|Hge].
  - pose proof (Nat.div_mod_eq (len - 3 - 1) 4) as Hdiv.
    pose proof (Nat.mod_upper_bound (len - 3 - 1) 4 ltac:(lia)) as Hmod.
    rewrite omap_seq_lookup.
    + destruct (decide (j < (len - 3 - 1) `div` 4 + 1)%nat) as [Hj|Hj]; [done|].
      symmetry. apply lookup_ge_None. fold len. lia.
    + intros k Hk. apply lookup_lt_is_Some. fold len. lia.
  - simpl. rewrite lookup_nil. symmetry. apply lookup_ge_None. fold len. lia.
Qed.

Lemma get_alpha_values_pixel (r g b a : Z) (rest : list Z) :
  get_alpha_values (r :: g :: b :: a :: rest) = a :: get_alpha_values rest.
Proof.
  apply list_eq. intros [|j].
  - by rewrite get_alpha_values_lookup.
  - rewrite get_alpha_values_lookup. simpl.
    by rewrite get_alpha_values_lookup.
Qed.

Lemma get_alpha_values_short (image_data : list Z) :
  (length image_data < 4)%nat → get_alpha_values image_data = [].
Proof.
  intros Hlen. apply list_eq. intros j.
  rewrite get_alpha_values_lookup, lookup_nil. apply lookup_ge_None. lia.
Qed.

Lemma get_alpha_values_length (image_data : list Z) :
  length (get_alpha_values image_data) = (length image_data `div` 4)%nat.
Proof.
  remember (length image_data) as n eqn:Hn. revert image_data Hn.
  induction (lt_wf n) as [n _ IH]. intros image_data Hn.
  destruct image_data as [|r [|g [|b [|a rest]]]]; simpl in Hn; subst n;
    try by rewrite get_alpha_values_short by (simpl; lia).
  rewrite get_alpha_values_pixel. simpl length.
  rewrite (IH (length rest) ltac:(lia) rest eq_refl).
  replace (S (S (S (S (length rest))))) with (length rest + 1 * 4)%nat by lia.
  rewrite Nat.div_add by lia. lia.
Qed.

Lemma get_alpha_values_bytes (image_data : list Z) :
  is_bytearray image_data → is_bytearray (get_alpha_values image_data).
Proof.
  intros Hb. apply Forall_lookup. intros j v Hj.
  rewrite get_alpha_values_lookup in Hj.
  by apply (is_bytearray_lookup _ _ _ Hb Hj).
Qed.

(** The loop appends one opaque-white pixel per alpha value. *)
Lemma alpha_loop_spec (alpha_values image_data : list Z) :
  is_bytearray alpha_values →
  alpha_loop alpha_values image_data
    = Ok (image_data ++ flat_map (λ a, [255; 255; 255; a]) alpha_values).
Proof.
  intros Hb. revert image_data.
  induction Hb as [|a rest Ha _ IH]; intros image_data; simpl.
  { by rewrite app_nil_r. }
  rewrite ba_extend_ok, bind_Ok by (repeat constructor; lia).
  rewrite IH. by rewrite <- app_assoc.
Qed.

Lemma alpha_vals_to_image_data_spec (alpha_values : list Z) :
  is_bytearray alpha_values →
  alpha_vals_to_image_data alpha_values
    = Ok (flat_map (λ a, [255; 255; 255; a]) alpha_values).
Proof. intros Hb. unfold alpha_vals_to_image_data. by rewrite alpha_loop_spec. Qed.

Lemma get_alpha_values_expand (alpha_values : list Z) :
  get_alpha_values (flat_map (λ a, [255; 255; 255; a]) alpha_values)
    = alpha_values.
Proof.
  induction alpha_values as [|a rest IH]; [done|].
  simpl. by rewrite get_alpha_values_pixel, IH.
Qed.

(** Expanding the alpha channel of an image of [n] pixels gives the
    image back exactly when its pixels are white. *)
Lemma expand_alpha_fixpoint (n : nat) (x : list Z) :
  length x = (4 * n)%nat →
  flat_map (λ a, [255; 255; 255; a]) (get_alpha_values x) = x
  ↔ ∀ p, (p < n)%nat →
      x !! (4 * p)%nat = Some 255 ∧ x !! (4 * p + 1)%nat = Some 255
      ∧ x !! (4 * p + 2)%nat = Some 255.
Proof.
  revert x. induction n as [|n IH]; intros x Hlen.
  { destruct x; [|done]. split; [intros _ p Hp; lia | done]. }
  destruct x as [|r [|g [|b [|a rest]]]]; simpl in Hlen; try lia.
  rewrite get_alpha_values_pixel. simpl flat_map.
  specialize (IH rest ltac:(lia)). split.
  - intros Heq. injection Heq as <- <- <- Hrest.
    intros [|p] Hp; [done|].
    destruct (proj1 IH Hrest p ltac:(lia)) as (H0 & H1 & H2).
    replace (4 * S p)%nat with (S (S (S (S (4 * p))))) by lia.
    by simpl.
  - intros Hwhite.
    destruct (Hwhite 0%nat ltac:(lia)) as (H0 & H1 & H2). simpl in H0, H1, H2.
    injection H0 as ->. injection H1 as ->. injection H2 as ->.
    do 4 f_equal. apply IH. intros p Hp.
    destruct (Hwhite (S p) ltac:(lia)) as (H0 & H1 & H2).
    replace (4 * S p)%nat with (S (S (S (S (4 * p))))) in * by lia.
    by simpl in *.
Qed.

End alpha.

(** ** The alpha-transform claims *)

(** C6. [get_alpha_values] returns every 4th byte of its input starting
    at offset 3: item [j] of the result is byte [3 + 4 j] of the input,
    and there are [len / 4] items; on [[r,g,b,a,r2,g2,b2,a2]] the result
    is [[a,a2]]. [alpha_vals_to_image_data] maps each alpha byte [a] to
    the four bytes [[255,255,255,a]], in order; on [[a]] the result is
    [[255,255,255,a]]. *)
Theorem alpha_projection (alpha_values : list Z) (a : Z) :
  is_bytearray alpha_values → 0 ≤ a < 256 →
  (∀ (image_data : list Z) (j : nat),
     Alpha.get_alpha_values image_data !! j = image_data !! (3 + j * 4)%nat)
  ∧ (∀ image_data : list Z,
       length (Alpha.get_alpha_values image_data)
         = (length image_data `div` 4)%nat)
  ∧ (∀ r g b a r2 g2 b2 a2 : Z,
       Alpha.get_alpha_values [r; g; b; a; r2; g2; b2; a2] = [a; a2])
  ∧ Alpha.alpha_vals_to_image_data alpha_values
      = Ok (flat_map (λ v, [255; 255; 255; v]) alpha_values)
  ∧ Alpha.alpha_vals_to_image_data [a] = Ok [255; 255; 255; a].
Proof.
  intros Hb Ha. split; [|split; [|split; [|split]]].
  - apply get_alpha_values_lookup.
  - apply get_alpha_values_length.
  - reflexivity.
  - by apply alpha_vals_to_image_data_spec.
  - apply (alpha_vals_to_image_data_spec [a]). constructor; [done|constructor].
Qed.

Lemma alpha_projection_witness :
  Alpha.alpha_vals_to_image_data [0; 10; 200]
    = Ok (flat_map (λ v, [255; 255; 255; v]) [0; 10; 200])
  ∧ Alpha.alpha_vals_to_image_data [77] = Ok [255; 255; 255; 77].
Proof.
  assert (is_bytearray [0; 10; 200]) as Hb by (repeat constructor; lia).
  assert (0 ≤ 77 < 256) as Ha by lia.
  destruct (alpha_projection [0; 10; 200] 77 Hb Ha) as (_ & _ & _ & H1 & H2).
  by split.
Defined.

(** C7. For every RGBA buffer [x] whose length is a multiple of 4,
    [alpha_vals_to_image_data (get_alpha_values x)] is [x] if and only if
    every pixel of [x] has red, green and blue equal to 255. *)
Theorem alpha_inverse_iff_white (x : list Z) :
  is_bytearray x →
  (length x `mod` 4 = 0)%nat →
  Alpha.alpha_vals_to_image_data (Alpha.get_alpha_values x) = Ok x
  ↔ ∀ p, (4 * p < length x)%nat →
      x !! (4 * p)%nat = Some 255 ∧ x !! (4 * p + 1)%nat = Some 255
      ∧ x !! (4 * p + 2)%nat = Some 255.
Proof.
  intros Hb Hlen.
  rewrite alpha_vals_to_image_data_spec by by apply get_alpha_values_bytes.
  pose proof (Nat.div_mod_eq (length x) 4) as Hdiv. rewrite Hlen in Hdiv.
  pose proof (expand_alpha_fixpoint (length x `div` 4) x ltac:(lia)) as Hiff.
  split.
  - intros Heq p Hp. injection Heq as Heq. apply Hiff; [done|lia].
  - intros Hwhite. f_equal. apply Hiff. intros p Hp. apply Hwhite. lia.
Qed.

Lemma alpha_inverse_iff_white_witness :
  Alpha.alpha_vals_to_image_data
    (Alpha.get_alpha_values [255; 255; 255; 0; 255; 255; 255; 10])
    = Ok [255; 255; 255; 0; 255; 255; 255; 10]
  ↔ ∀ p, (4 * p < length [255; 255; 255; 0; 255; 255; 255; 10])%nat →
      [255; 255; 255; 0; 255; 255; 255; 10] !! (4 * p)%nat = Some 255
      ∧ [255; 255; 255; 0; 255; 255; 255; 10] !! (4 * p + 1)%nat = Some 255
      ∧ [255; 255; 255; 0; 255; 255; 255; 10] !! (4 * p + 2)%nat = Some 255.
Proof.
  apply (alpha_inverse_iff_white [255; 255; 255; 0; 255; 255; 255; 10]).
  - repeat constructor; lia.
  - reflexivity.
Defined.

(** C9. For every alpha buffer [a], expanding it succeeds and the alpha
    channel of the expansion is [a] again. *)
Theorem alpha_expand_extract (a : list Z) :
  is_bytearray a →
  ∃ y, Alpha.alpha_vals_to_image_data a = Ok y ∧ Alpha.get_alpha_values y = a.
Proof.
  intros Hb. exists (flat_map (λ v, [255; 255; 255; v]) a). split.
  - by apply alpha_vals_to_image_data_spec.
  - apply get_alpha_values_expand.
Qed.

Lemma alpha_expand_extract_witness :
  ∃ y, Alpha.alpha_vals_to_image_data [0; 10; 2] = Ok y
       ∧ Alpha.get_alpha_values y = [0; 10; 2].
Proof.
  apply (alpha_expand_extract [0; 10; 2]). repeat constructor; lia.
Defined.

(** ** Escape-conflict resolver *)

Section resolver.
Import Resolver.

Local Abbreviation resolved := (λ b : Z, if b =? 2 then 1 else b).

Lemma find_from_spec (sub : Z) (bs : list Z) (j0 : nat) :
  (find_from bs sub (Z.of_nat j0) = -1 ∧ ∀ j, bs !! j ≠ Some sub)
  ∨ (∃ k, find_from bs sub (Z.of_nat j0) = Z.of_nat (j0 + k)
          ∧ bs !! k = Some sub
          ∧ ∀ j, (j < k)%nat → bs !! j ≠ Some sub).
Proof.
  revert j0. induction bs as [|b bs IH]; intros j0; simpl.
  { left. split; [done|]. intros j. by rewrite lookup_nil. }
  destruct (Z.eqb_spec b sub) as [->|Hne].
  - right. exists 0%nat. rewrite Nat.add_0_r.
    split; [done|]. split; [done|]. intros j Hj. lia.
  - replace (Z.of_nat j0 + 1) with (Z.of_nat (S j0)) by lia.
    destruct (IH (S j0)) as [[Hm Hnone]|(k & Hk & Hat & Hbefore)].
    + left. split; [done|]. intros [|j]; simpl; [congruence|apply Hnone].
    + right. exists (S k). split; [rewrite Hk; f_equal; lia|]. split; [done|].
      intros [|j] Hj; simpl; [congruence|]. apply Hbefore. lia.
Qed.

(** [find] from a non-negative start: the first position at or after
    it that holds [sub], or [-1] when there is none. *)
Lemma find_spec (sub : Z) (bs : list Z) (s : nat) :
  (find bs sub (Z.of_nat s) = -1 ∧ ∀ j, (s ≤ j)%nat → bs !! j ≠ Some sub)
  ∨ (∃ k, find bs sub (Z.of_nat s) = Z.of_nat k ∧ (s ≤ k)%nat
          ∧ bs !! k = Some sub
          ∧ ∀ j, (s ≤ j < k)%nat → bs !! j ≠ Some sub).
Proof.
  unfold find. rewrite (proj2 (Z.ltb_ge _ _)) by lia. rewrite Nat2Z.id.
  destruct (find_from_spec sub (drop s bs) s) as [[Hm Hnone]|(k & Hk & Hat & Hbefore)].
  - left. split; [done|]. intros j Hj. specialize (Hnone (j - s)%nat).
    rewrite lookup_drop in Hnone. by replace (s + (j - s))%nat with j in Hnone by lia.
  - right. exists (s + k)%nat. rewrite lookup_drop in Hat.
    repeat split; try done; [lia|].
    intros j Hj. specialize (Hbefore (j - s)%nat ltac:(lia)).
    rewrite lookup_drop in Hbefore.
    by replace (s + (j - s))%nat with j in Hbefore by lia.
Qed.

Lemma resolved_id (bs : list Z) :
  (∀ j, bs !! j ≠ Some 2) → resolved <$> bs = bs.
Proof.
  intros Hnone. apply list_eq. intros j. rewrite list_lookup_fmap.
  destruct (bs !! j) as [b|] eqn:Hb; [|done]. simpl.
  destruct (Z.eqb_spec b 2) as [->|]; [|done]. by destruct (Hnone j).
Qed.

Lemma resolved_insert (bs : list Z) (k : nat) :
  bs !! k = Some 2 → resolved <$> <[k := 1]> bs = resolved <$> bs.
Proof.
  intros Hk. rewrite list_fmap_insert. apply list_insert_id.
  by rewrite list_lookup_fmap, Hk.
Qed.

(** The loop, started at the first marker at or after a position
    before which there is none, replaces every marker of the copy. *)
Lemma fix_loop_spec (copy : nat) :
  ∀ (fuel : nat) (bs : list Z) (s : nat) (h : store),
    h !! copy = Some bs →
    (∀ j, (j < s)%nat → bs !! j ≠ Some 2) →
    (s ≤ length bs)%nat →
    (length bs - s < fuel)%nat →
    fix_loop fuel copy (find bs 2 (Z.of_nat s)) h
      = Ok (tt, <[copy := resolved <$> bs]> h).
Proof.
  induction fuel as [|fuel IH]; intros bs s h Hh Hbefore Hs Hfuel; [lia|].
  destruct (find_spec 2 bs s) as [[-> Hnone]|(k & -> & Hsk & Hat & Hmid)].
  - simpl. rewrite resolved_id.
    + by rewrite insert_id.
    + intros j. destruct (Nat.lt_ge_cases j s); [by apply Hbefore|by apply Hnone].
  - pose proof (lookup_lt_Some _ _ _ Hat) as Hk.
    simpl. rewrite (proj2 (Z.eqb_neq _ _)) by lia. simpl.
    unfold ba_setitem. rewrite Hh. unfold setitem. simpl.
    rewrite (proj2 (Z.ltb_ge _ _)) by lia.
    rewrite (proj2 (Z.leb_le _ _)) by lia.
    rewrite (proj2 (Z.ltb_lt _ _)) by lia.
    simpl. rewrite Nat2Z.id.
    unfold ba_find. rewrite lookup_insert_eq. simpl.
    replace (Z.of_nat k + 1) with (Z.of_nat (S k)) by lia.
    rewrite (IH (<[k := 1]> bs) (S k)).
    + by rewrite insert_insert_eq, resolved_insert.
    + apply lookup_insert_eq.
    + intros j Hj. destruct (decide (j = k)) as [->|Hjk].
      * by rewrite list_lookup_insert_eq.
      * rewrite list_lookup_insert_ne by done.
        destruct (Nat.lt_ge_cases j s); [by apply Hbefore|apply Hmid; lia].
    + rewrite length_insert. lia.
    + rewrite length_insert. lia.
Qed.

(** The whole call: a new object holding the resolved bytes is added
    to the store and nothing else changes. *)
Lemma fix_data_for_rle_spec (h : store) (data : nat) (x : list Z) :
  h !! data = Some x →
  h !! fresh (dom h) = None
  ∧ fix_data_for_rle data h
      = Ok (fresh (dom h), <[fresh (dom h) := resolved <$> x]> h).
Proof.
  intros Hdata.
  assert (h !! fresh (dom h) = None) as Hfresh.
  { apply not_elem_of_dom. apply is_fresh. }
  split; [done|].
  unfold fix_data_for_rle, ba_copy. rewrite Hdata.
  cbv beta iota zeta. rewrite bind_Ok. cbv beta iota.
  unfold ba_find. rewrite lookup_insert_eq, bind_Ok. cbv beta iota.
  rewrite lookup_insert_eq. change (from_option length 0%nat (Some x)) with (length x).
  rewrite (fix_loop_spec _ _ x 0%nat); try done.
  - rewrite bind_Ok. cbv beta iota. by rewrite insert_insert_eq.
  - apply lookup_insert_eq.
  - intros j Hj. lia.
  - lia.
  - lia.
Qed.

Lemma resolved_no_marker (x : list Z) : 2 ∉ resolved <$> x.
Proof.
  intros Hin. apply list_elem_of_fmap in Hin as (b & Hb & _).
  destruct (Z.eqb_spec b 2); lia.
Qed.

Lemma resolved_bytes (x : list Z) :
  is_bytearray x → is_bytearray (resolved <$> x).
Proof.
  intros Hb. induction Hb as [|b bs Hrange _ IH]; [constructor|].
  rewrite fmap_cons. constructor; [|done].
  destruct (Z.eqb_spec b 2); lia.
Qed.

Lemma fix_data_for_rle_bytes_spec (x : list Z) :
  fix_data_for_rle_bytes x = Ok (resolved <$> x).
Proof.
  unfold fix_data_for_rle_bytes.
  destruct (fix_data_for_rle_spec {[ 0%nat := x ]} 0%nat x) as [_ ->].
  { apply lookup_singleton_eq. }
  simpl. by rewrite lookup_insert_eq.
Qed.

End resolver.

(** C5. [fix_data_for_rle] returns a new buffer: the bytes of its
    argument with every 2 replaced by 1, so with no byte equal to 2. The
    argument, and every other object, is left as it was. *)
Theorem fix_data_for_rle_correct (h : gmap nat (list Z)) (data : nat) (x : list Z) :
  h !! data = Some x →
  ∃ copy h',
    Resolver.fix_data_for_rle data h = Ok (copy, h')
    ∧ copy ≠ data ∧ h !! copy = None
    ∧ h' !! copy = Some ((λ b, if b =? 2 then 1 else b) <$> x)
    ∧ (2 ∉ (λ b, if b =? 2 then 1 else b) <$> x)
    ∧ h' !! data = Some x
    ∧ ∀ r, r ≠ copy → h' !! r = h !! r.
Proof.
  intros Hdata. destruct (fix_data_for_rle_spec h data x Hdata) as [Hfresh Hrun].
  exists (fresh (dom h)), (<[fresh (dom h) := (λ b, if b =? 2 then 1 else b) <$> x]> h).
  assert (fresh (dom h) ≠ data) as Hne by (intros Heq; congruence).
  repeat split; try done.
  - apply lookup_insert_eq.
  - apply resolved_no_marker.
  - by rewrite lookup_insert_ne.
  - intros r Hr. by rewrite lookup_insert_ne.
Qed.

Lemma fix_data_for_rle_correct_witness :
  ∃ copy h',
    Resolver.fix_data_for_rle 5%nat {[ 5%nat := [2; 0; 2; 2; 9] ]} = Ok (copy, h')
    ∧ copy ≠ 5%nat ∧ ({[ 5%nat := [2; 0; 2; 2; 9] ]} : gmap nat (list Z)) !! copy = None
    ∧ h' !! copy = Some ((λ b, if b =? 2 then 1 else b) <$> [2; 0; 2; 2; 9])
    ∧ (2 ∉ (λ b, if b =? 2 then 1 else b) <$> [2; 0; 2; 2; 9])
    ∧ h' !! 5%nat = Some [2; 0; 2; 2; 9]
    ∧ ∀ r, r ≠ copy → h' !! r = ({[ 5%nat := [2; 0; 2; 2; 9] ]} : gmap nat (list Z)) !! r.
Proof.
  apply (fix_data_for_rle_correct {[ 5%nat := [2; 0; 2; 2; 9] ]} 5%nat [2; 0; 2; 2; 9]).
  reflexivity.
Defined.

(** ** Packaging decision *)

Section packaging.
Import Packaging.

(** The per-image step never fails on a bytearray, and its record is
    decided by comparing the raw file with the compressed bytes. *)
Lemma package_image_spec (mode : bool) (image_data : list Z) (width height : Z)
    (raw_png_data : list Z) :
  is_bytearray image_data →
  let working := if mode then Alpha.get_alpha_values image_data else image_data in
  ∃ adjusted compressed,
    Resolver.fix_data_for_rle_bytes working = Ok adjusted
    ∧ RLE.rle_compress adjusted = Ok compressed
    ∧ package_image mode image_data width height raw_png_data
        = Ok (if (length raw_png_data <? length compressed)%nat
              then Entry raw_png_data width height
                     (Z.of_nat (length adjusted)) true false
              else Entry compressed width height
                     (Z.of_nat (length adjusted)) false mode).
Proof.
  intros Hb working.
  assert (is_bytearray working) as Hw.
  { unfold working. destruct mode; [by apply get_alpha_values_bytes|done]. }
  pose proof (fix_data_for_rle_bytes_spec working) as Hfix.
  destruct (rle_compress_runs _ (resolved_bytes working Hw))
    as (runs & Hc & _).
  eexists _, _. split; [exact Hfix|]. split; [exact Hc|].
  unfold package_image.
  assert ((if mode then (true, Alpha.get_alpha_values image_data)
           else (false, image_data)) = (mode, working)) as ->
    by by destruct mode.
  rewrite Hfix, bind_Ok, Hc, bind_Ok.
  by destruct (length raw_png_data <? length (flat_map RLE.run_code runs))%nat.
Qed.

End packaging.

(** C3. For every image the packaging step produces a record. With
    [compressed] the run-length code of the resolved working buffer, the
    record has [is_raw_png = true], the raw file bytes as payload and
    [alpha_only = false] exactly when the raw file is shorter than
    [compressed]; otherwise the payload is [compressed],
    [is_raw_png = false] and [alpha_only] is the mode chosen in the first
    step. So [alpha_only] and [is_raw_png] are never both true, and a raw
    file no longer than one that was chosen raw is chosen raw as well. *)
Theorem packaging_decision (mode : bool) (image_data : list Z) (width height : Z)
    (raw_png_data : list Z) :
  is_bytearray image_data →
  ∃ adjusted compressed e,
    Resolver.fix_data_for_rle_bytes
      (if mode then Alpha.get_alpha_values image_data else image_data) = Ok adjusted
    ∧ RLE.rle_compress adjusted = Ok compressed
    ∧ Packaging.package_image mode image_data width height raw_png_data = Ok e
    ∧ (Packaging.is_raw_png e = true ↔ (length raw_png_data < length compressed)%nat)
    ∧ ((length raw_png_data < length compressed)%nat →
         Packaging.image_data e = raw_png_data
         ∧ Packaging.is_raw_png e = true ∧ Packaging.alpha_only e = false)
    ∧ (¬ (length raw_png_data < length compressed)%nat →
         Packaging.image_data e = compressed
         ∧ Packaging.is_raw_png e = false ∧ Packaging.alpha_only e = mode)
    ∧ ¬ (Packaging.alpha_only e = true ∧ Packaging.is_raw_png e = true)
    ∧ ∀ raw' e',
        Packaging.package_image mode image_data width height raw' = Ok e' →
        (length raw' ≤ length raw_png_data)%nat →
        Packaging.is_raw_png e = true → Packaging.is_raw_png e' = true.
Proof.
  intros Hb.
  destruct (package_image_spec mode image_data width height raw_png_data Hb)
    as (adjusted & compressed & Hfix & Hc & Hpkg).
  eexists adjusted, compressed, _.
  split; [exact Hfix|]. split; [exact Hc|]. split; [exact Hpkg|].
  destruct (Nat.ltb_spec (length raw_png_data) (length compressed)) as [Hlt|Hge];
    simpl.
  - repeat split; try done; try lia; try (intros [? ?]; done).
    intros raw' e' Hpkg' Hle _.
    destruct (package_image_spec mode image_data width height raw' Hb)
      as (adjusted' & compressed' & Hfix' & Hc' & Hpkg'').
    rewrite Hfix in Hfix'. injection Hfix' as <-.
    rewrite Hc in Hc'. injection Hc' as <-.
    rewrite Hpkg' in Hpkg''. injection Hpkg'' as ->.
    by rewrite (proj2 (Nat.ltb_lt (length raw') (length compressed))) by lia.
  - repeat split; try done; try lia; intros [? ?]; done.
Qed.

Lemma packaging_decision_witness :
  ∃ adjusted compressed e,
    Resolver.fix_data_for_rle_bytes
      (if true then Alpha.get_alpha_values [255; 255; 255; 0; 255; 255; 255; 10]
       else [255; 255; 255; 0; 255; 255; 255; 10]) = Ok adjusted
    ∧ RLE.rle_compress adjusted = Ok compressed
    ∧ Packaging.package_image true [255; 255; 255; 0; 255; 255; 255; 10] 2 1 [137; 80; 78]
        = Ok e
    ∧ (Packaging.is_raw_png e = true ↔ (length [137; 80; 78] < length compressed)%nat)
    ∧ ((length [137; 80; 78] < length compressed)%nat →
         Packaging.image_data e = [137; 80; 78]
         ∧ Packaging.is_raw_png e = true ∧ Packaging.alpha_only e = false)
    ∧ (¬ (length [137; 80; 78] < length compressed)%nat →
         Packaging.image_data e = compressed
         ∧ Packaging.is_raw_png e = false ∧ Packaging.alpha_only e = true)
    ∧ ¬ (Packaging.alpha_only e = true ∧ Packaging.is_raw_png e = true)
    ∧ ∀ raw' e',
        Packaging.package_image true [255; 255; 255; 0; 255; 255; 255; 10] 2 1 raw' = Ok e' →
        (length raw' ≤ length [137; 80; 78])%nat →
        Packaging.is_raw_png e = true → Packaging.is_raw_png e' = true.
Proof.
  apply (packaging_decision true [255; 255; 255; 0; 255; 255; 255; 10] 2 1 [137; 80; 78]).
  repeat constructor; lia.
Defined.

(** ** Header round trip *)

Section header.
Import Header.

Lemma bind_Ok_inv {A B : Type} (m : result A) (k : A → result B) (b : B) :
  (m ≫= k) = Ok b → ∃ a, m = Ok a ∧ k a = Ok b.
Proof. destruct m as [a|e]; [by exists a|done]. Qed.

Lemma string_of_list_ascii_snoc (cs : list ascii) (a : ascii) :
  string_of_list_ascii (cs ++ [a]) ≠ EmptyString.
Proof. by destruct cs. Qed.

(** A match lists one text per group of the pattern, and the text of a
    [(\d+)] group is never empty. *)
Lemma match_here_groups (p : list re_item) :
  ∀ cs groups,
    match_here p cs = Some groups →
    Forall2 (λ it g, it = Digits → g ≠ EmptyString) (List.filter is_group p) groups.
Proof.
  induction p as [|it p IH]; intros cs groups Hm.
  { injection Hm as <-. constructor. }
  destruct it as [c| |]; simpl in Hm |- *.
  - destruct cs as [|a cs]; [done|]. destruct (Ascii.eqb a c); [|done].
    by apply (IH cs).
  - revert Hm. generalize (@nil ascii) as taken.
    induction cs as [|a cs IHcs]; intros taken Hm.
    + destruct (match_here p []) as [gs|] eqn:Hp; [|done].
      injection Hm as <-. constructor; [done|by apply (IH [])].
    + destruct (match_here p (a :: cs)) as [gs|] eqn:Hp.
      * injection Hm as <-. constructor; [done|by apply (IH (a :: cs))].
      * destruct (Ascii.eqb a "010"); [done|]. by apply (IHcs (a :: taken)).
  - revert Hm. generalize (@nil ascii) as taken.
    induction cs as [|a cs IHcs]; intros taken Hm; [done|].
    destruct (is_digit a); [|done].
    match type of Hm with
    | context [match ?g with Some _ => _ | None => _ end] =>
        destruct g as [gs|] eqn:Hg
    end.
    + injection Hm as <-. by apply (IHcs (a :: taken)).
    + destruct (match_here p cs) as [gs|] eqn:Hp; [|done].
      injection Hm as <-. constructor; [|by apply (IH cs)].
      intros _. rewrite reverse_cons. apply string_of_list_ascii_snoc.
Qed.

Lemma search_chars_match (p : list re_item) (cs : list ascii) (m : list string) :
  search_chars p cs = Some m → ∃ cs', match_here p cs' = Some m.
Proof.
  induction cs as [|a cs IH]; simpl; intros Hs.
  - destruct (match_here p []) as [gs|] eqn:Hm; [|done].
    injection Hs as <-. by exists [].
  - destruct (match_here p (a :: cs)) as [gs|] eqn:Hm; [|by apply IH].
    injection Hs as <-. by exists (a :: cs).
Qed.

(** Group 7 of a match of the pattern is a [(\d+)] group. *)
Lemma re_search_group7 (line : string) (m : list string) :
  re_search pattern line = Some m →
  ∃ g7, group m 7 = Ok g7 ∧ bool_of_str g7 = true.
Proof.
  intros Hs. apply search_chars_match in Hs as [cs Hm].
  apply match_here_groups in Hm.
  change (List.filter is_group pattern)
    with [LazyAny; Digits; LazyAny; Digits; Digits; Digits; Digits; LazyAny] in Hm.
  do 6 (apply Forall2_cons_inv_l in Hm as (? & ? & _ & Hm & ->)).
  apply Forall2_cons_inv_l in Hm as (g7 & ? & Hg7 & Hm & ->).
  exists g7. split; [reflexivity|].
  destruct g7; [by destruct Hg7|done].
Qed.

Lemma dict_set_Forall {V : Type} (P : V → Prop) (d : list (string * V))
    (k : string) (v : V) :
  Forall (λ kv, P kv.2) d → P v → Forall (λ kv, P kv.2) (dict_set d k v).
Proof.
  intros Hd Hv. induction Hd as [|[k' v'] d Hk Hd IH]; simpl.
  - by repeat constructor.
  - destruct (String.eqb k' k); constructor; done.
Qed.

(** Every record the parser stores has [is_raw_png = True]: the flag is
    [bool] of the text of a [(\d+)] group. *)
Lemma extract_loop_raw (fuel : nat) (lines : list string) :
  ∀ i d t,
    Forall (λ kv, x_is_raw_png kv.2 = true) d →
    extract_loop fuel lines i d = Ok t →
    Forall (λ kv, x_is_raw_png kv.2 = true) t.
Proof.
  induction fuel as [|fuel IH]; intros i d t Hd Hrun; [done|].
  simpl in Hrun. destruct (i <? length lines)%nat; [|by injection Hrun as <-].
  apply bind_Ok_inv in Hrun as (line & _ & Hrun).
  apply bind_Ok_inv in Hrun as (d' & Hstep & Hrun).
  apply (IH (i + 1)%nat d'); [|done]. clear Hrun IH.
  destruct (re_search pattern line) as [m|] eqn:Hs; [|by injection Hstep as <-].
  destruct (re_search_group7 _ _ Hs) as (g7 & Hg7 & Htrue).
  repeat (apply bind_Ok_inv in Hstep as (? & ? & Hstep)).
  injection Hstep as <-.
  apply (dict_set_Forall (λ e, x_is_raw_png e = true)); [done|]. simpl.
  congruence.
Qed.

Lemma extract_image_data_raw (header : string) (t : list (string * extracted)) :
  extract_image_data header = Ok t →
  Forall (λ kv, x_is_raw_png kv.2 = true) t.
Proof. apply extract_loop_raw. constructor. Qed.

End header.

(** C2. The parser does not give back the table the generator wrote. On
    a table of one record with payload [0,10,7], width 64, height 32,
    decompressed size 2048 and both flags false, the parsed record has
    width 3 (the payload length), height 64 (the width), original size 32
    (the height) and both flags true. *)
Theorem extract_generate_header_mismatch :
  Header.extract_image_data
    (Header.generate_header
       [("a.png"%string, Packaging.Entry [0; 10; 7] 64 32 2048 false false)])
  = Ok [("a.png"%string, Header.Extracted [0; 10; 7] 3 3 64 32 true true)].
Proof. vm_compute. reflexivity. Qed.

(** The end-to-end example: a 2x1 image of white pixels with alpha 0 and
    10, alpha-only mode, and a raw file that is not shorter than the two
    compressed bytes. *)
Example main_package_image_example :
  Packaging.main_package_image [255; 255; 255; 0; 255; 255; 255; 10] 2 1
    [137; 80; 78; 71]
  = Ok (Packaging.Entry [0; 10] 2 1 2 false true)
  ∧ (c ← RLE.rle_decompress [0; 10]; Alpha.alpha_vals_to_image_data c)
    = Ok [255; 255; 255; 0; 255; 255; 255; 10].
Proof. split; vm_compute; reflexivity. Qed.

(** * Further properties of the code *)

(** ** The codec on arbitrary input *)

Section codec_more.
Import RLE.

Lemma run_code_length (r : Z * nat) :
  (1 ≤ r.2 ≤ 255)%nat → (length (run_code r) ≤ length (run_bytes r))%nat.
Proof.
  destruct r as [v n]. intros Hn. unfold run_bytes. simpl in *.
  rewrite length_replicate. destruct (Nat.lt_ge_cases 2 n).
  - rewrite run_code_long by done. simpl. lia.
  - rewrite run_code_short, length_replicate by done. lia.
Qed.

Lemma run_code_bytes (r : Z * nat) :
  0 ≤ r.1 < 256 → (1 ≤ r.2 ≤ 255)%nat → is_bytearray (run_code r).
Proof.
  destruct r as [v n]. simpl. intros Hv Hn. destruct (Nat.lt_ge_cases 2 n).
  - rewrite run_code_long by done. repeat constructor; lia.
  - rewrite run_code_short by done. by apply is_bytearray_replicate.
Qed.

Lemma runs_code_length (runs : list (Z * nat)) :
  Forall (λ r, 1 ≤ r.2 ≤ 255)%nat runs →
  (length (flat_map run_code runs) ≤ length (flat_map run_bytes runs))%nat.
Proof.
  induction 1 as [|r runs Hr _ IH]; [done|].
  simpl. rewrite !length_app. pose proof (run_code_length r Hr). lia.
Qed.

Lemma runs_code_bytes (runs : list (Z * nat)) :
  Forall (λ r, 1 ≤ r.2 ≤ 255)%nat runs →
  Forall (λ r, 0 ≤ r.1 < 256) runs →
  is_bytearray (flat_map run_code runs).
Proof.
  induction 1 as [|r runs Hr _ IH]; intros Hv; [constructor|].
  apply Forall_cons_1 in Hv as [Hv Hvs]. simpl. apply Forall_app. split.
  - by apply run_code_bytes.
  - by apply IH.
Qed.

(** The head of a block of equal bytes. *)
Lemma replicate_app_inv (c n : nat) (v1 v : Z) (l : list Z) :
  (1 ≤ c)%nat → replicate c v1 ++ l = replicate n v →
  v1 = v ∧ (c ≤ n)%nat ∧ l = replicate (n - c) v.
Proof.
  intros Hc Heq.
  assert (c + length l = n)%nat as Hlen.
  { apply (f_equal length) in Heq.
    by rewrite length_app, !length_replicate in Heq. }
  split; [|split; [lia|]].
  - apply (f_equal (λ k, k !! 0%nat)) in Heq.
    destruct c; [lia|]. destruct n; [lia|]. simpl in Heq. congruence.
  - apply (f_equal (drop c)) in Heq.
    rewrite drop_replicate in Heq. rewrite <- Heq.
    rewrite drop_app_length'; [done|by rewrite length_replicate].
Qed.

(** Greedy runs of a constant buffer: full runs of 255 and one rest. *)
Lemma constant_runs (v : Z) (runs : list (Z * nat)) :
  Forall (λ r, 1 ≤ r.2 ≤ 255)%nat runs →
  maximal runs →
  ∀ q r, (r < 255)%nat →
    flat_map run_bytes runs = replicate (255 * q + r) v →
    flat_map run_code runs
      = concat (replicate q [2; 255; v]) ++ run_code (v, r).
Proof.
  induction 1 as [|[v1 c] runs Hc Hlens IH]; intros Hmax q r Hr Hbytes.
  { symmetry in Hbytes. apply (f_equal length) in Hbytes.
    rewrite length_replicate in Hbytes. simpl in Hbytes.
    assert (q = 0 ∧ r = 0)%nat as [-> ->] by lia. done. }
  simpl in Hc. change (flat_map run_bytes ((v1, c) :: runs))
    with (replicate c v1 ++ flat_map run_bytes runs) in Hbytes.
  apply replicate_app_inv in Hbytes as (-> & Hle & Hrest); [|lia].
  change (flat_map run_code ((v, c) :: runs))
    with (run_code (v, c) ++ flat_map run_code runs).
  destruct runs as [|[v2 c2] runs'].
  - simpl in Hrest. symmetry in Hrest. apply (f_equal length) in Hrest.
    rewrite length_replicate in Hrest. simpl in Hrest.
    assert (c = 255 * q + r)%nat as -> by lia. rewrite app_nil_r.
    destruct q as [|[|q]]; [by rewrite Nat.mul_0_r| |lia].
    assert (r = 0)%nat as -> by lia. simpl. by rewrite run_code_long by lia.
  - destruct Hmax as [Hstop Hmax]. simpl in Hstop.
    pose proof Hrest as Hrest'.
    change (flat_map run_bytes ((v2, c2) :: runs'))
      with (replicate c2 v2 ++ flat_map run_bytes runs') in Hrest'.
    apply Forall_cons_1 in Hlens as Hc2. destruct Hc2 as [Hc2 _]. simpl in Hc2.
    apply replicate_app_inv in Hrest' as (-> & Hle2 & _); [|lia].
    assert (c = 255)%nat as -> by (destruct Hstop; [done|congruence]).
    destruct q as [|q]; [lia|].
    replace (255 * S q + r - 255)%nat with (255 * q + r)%nat in Hrest by lia.
    rewrite (IH Hmax q r Hr Hrest). by rewrite run_code_long by lia.
Qed.

(** The decoder either returns or stops with [IndexError] at a marker it
    reached that has fewer than two bytes after it. *)
Lemma decompress_loop_scan (c : list Z) :
  is_bytearray c →
  ∀ fuel i acc,
    (i ≤ length c)%nat → (length c - i < fuel)%nat →
    (∃ y, decompress_loop fuel c i acc = Ok y)
    ∨ (decompress_loop fuel c i acc = Raise IndexError
       ∧ ∃ j y, (i ≤ j)%nat ∧ c !! j = Some 2 ∧ (length c ≤ j + 2)%nat
                ∧ ∀ fuel', (j - i < fuel')%nat →
                    decompress_loop fuel' (take j c) i acc = Ok y).
Proof.
  intros Hb. induction fuel as [|fuel IH]; intros i acc Hi Hfuel; [lia|].
  destruct (Nat.lt_ge_cases i (length c)) as [Hlt|Hge].
  2:{ left. exists acc. by apply decompress_loop_done. }
  destruct (lookup_lt_is_Some_2 c i Hlt) as [b Hbi].
  pose proof (is_bytearray_lookup _ _ _ Hb Hbi) as Hbyte.
  destruct (decide (b = 2)) as [->|Hne].
  - destruct (Nat.lt_ge_cases (i + 2) (length c)) as [Hin|Hout].
    + destruct (lookup_lt_is_Some_2 c (i + 1)) as [n Hn]; [lia|].
      destruct (lookup_lt_is_Some_2 c (i + 2)) as [v Hv]; [lia|].
      pose proof (is_bytearray_lookup _ _ _ Hb Hv) as Hvb.
      rewrite (decompress_loop_run _ _ _ _ n v) by done.
      destruct (IH (i + 3)%nat (acc ++ replicate (Z.to_nat n) v))
        as [Hok|(Herr & j & y & Hj & Hm & Hend & Hpre)]; [lia|lia|by left|].
      right. split; [done|]. exists j, y. repeat split; try done; [lia|].
      intros [|fuel'] Hf; [lia|].
      rewrite (decompress_loop_run _ _ _ _ n v); try done.
      * apply Hpre. lia.
      * rewrite lookup_take_lt by lia. done.
      * rewrite lookup_take_lt by lia. done.
      * rewrite lookup_take_lt by lia. done.
    + right. split; [by apply decompress_loop_truncated|].
      exists i, acc. repeat split; try done.
      intros [|fuel'] Hf; [lia|]. apply decompress_loop_done.
      rewrite length_take. lia.
  - rewrite (decompress_loop_literal _ _ _ _ b) by done.
    destruct (IH (i + 1)%nat (acc ++ [b]))
      as [Hok|(Herr & j & y & Hj & Hm & Hend & Hpre)]; [lia|lia|by left|].
    right. split; [done|]. exists j, y. repeat split; try done; [lia|].
    intros [|fuel'] Hf; [lia|].
    rewrite (decompress_loop_literal _ _ _ _ b); try done.
    + apply Hpre. lia.
    + rewrite lookup_take_lt by lia. done.
Qed.

End codec_more.

(** X1. On every bytearray, bytes 2 included, [rle_compress] returns a
    bytearray that is never longer than its input. *)
Theorem rle_compress_never_expands (data : list Z) :
  is_bytearray data →
  ∃ c, RLE.rle_compress data = Ok c
       ∧ is_bytearray c ∧ (length c ≤ length data)%nat.
Proof.
  intros Hb. destruct (rle_compress_runs data Hb) as (runs & Hc & Hd & Hn & _).
  exists (flat_map RLE.run_code runs). split; [done|]. split.
  - apply runs_code_bytes; [done|].
    apply (runs_values (λ v, 0 ≤ v < 256) runs Hn). by rewrite <- Hd.
  - rewrite Hd. by apply runs_code_length.
Qed.

Lemma rle_compress_never_expands_witness :
  ∃ c, RLE.rle_compress [2; 2; 2; 2; 7; 2] = Ok c
       ∧ is_bytearray c ∧ (length c ≤ length [2; 2; 2; 2; 7; 2])%nat.
Proof.
  apply (rle_compress_never_expands [2; 2; 2; 2; 7; 2]).
  repeat constructor; lia.
Defined.

(** X2. A buffer of [n = 255 q + r] copies of one byte ([r < 255]), as
    [generate_bytearray_of_length] builds it, compresses to [q] triples
    [2, 255, v] followed by the code of the last [r] bytes: nothing for
    [r = 0], the bytes themselves for [r] of 1 or 2, the triple
    [2, r, v] otherwise. *)
Theorem rle_compress_constant (v : Z) (q r : nat) :
  0 ≤ v < 256 → (r < 255)%nat →
  ∃ data,
    Tools.generate_bytearray_of_length v (Z.of_nat (255 * q + r)) = Ok data
    ∧ data = replicate (255 * q + r) v
    ∧ RLE.rle_compress data
        = Ok (concat (replicate q [2; 255; v])
                ++ (if (2 <? r)%nat then [2; Z.of_nat r; v] else replicate r v)).
Proof.
  intros Hv Hr. exists (replicate (255 * q + r) v).
  assert (is_bytearray (replicate (255 * q + r) v)) as Hb
    by by apply is_bytearray_replicate.
  split; [|split; [done|]].
  - unfold Tools.generate_bytearray_of_length. rewrite Nat2Z.id.
    induction (255 * q + r)%nat as [|n IH]; [done|]. simpl.
    rewrite is_byte_true by done. simpl in IH. unfold is_bytearray in Hb.
    by rewrite IH by by apply Forall_replicate.
  - destruct (rle_compress_runs _ Hb) as (runs & -> & Hd & Hn & Hmax).
    f_equal. by apply (constant_runs v runs Hn Hmax q r Hr).
Qed.

Lemma rle_compress_constant_witness :
  ∃ data,
    Tools.generate_bytearray_of_length 9 (Z.of_nat (255 * 2 + 4)) = Ok data
    ∧ data = replicate (255 * 2 + 4) 9
    ∧ RLE.rle_compress data
        = Ok (concat (replicate 2 [2; 255; 9])
                ++ (if (2 <? 4)%nat then [2; Z.of_nat 4; 9] else replicate 4 9)).
Proof. apply (rle_compress_constant 9 2 4); lia. Defined.

(** X3. On a bytearray [rle_decompress] either returns a result or
    raises [IndexError], and it raises exactly when the input is some
    bytes that decode on their own, then a marker 2, then fewer than two
    bytes. *)
Theorem rle_decompress_outcomes (c : list Z) :
  is_bytearray c →
  ((∃ y, RLE.rle_decompress c = Ok y) ∨ RLE.rle_decompress c = Raise IndexError)
  ∧ (RLE.rle_decompress c = Raise IndexError
     ↔ ∃ pre tail y, c = pre ++ 2 :: tail ∧ (length tail < 2)%nat
                      ∧ RLE.rle_decompress pre = Ok y).
Proof.
  intros Hb.
  destruct (decompress_loop_scan c Hb (S (length c)) 0 [] ltac:(lia) ltac:(lia))
    as [[y Hok]|(Herr & j & y & _ & Hm & Hend & Hpre)].
  - split; [left; by exists y|]. unfold RLE.rle_decompress. split.
    + rewrite Hok. done.
    + intros (pre & tail & y' & -> & Htail & Hp).
      unfold RLE.rle_decompress in Hp.
      pose proof (decompress_prefix_truncated pre tail y' Htail
                    _ 0%nat [] (length tail) Hp ltac:(lia)) as Herr.
      change (S (length pre) + S (length tail))%nat
        with (S (length pre + S (length tail))) in Herr.
      rewrite length_app. exact Herr.
  - split; [by right|]. split; [|done]. intros _.
    exists (take j c), (drop (S j) c), y. split; [|split].
    + rewrite <- (take_drop j c) at 1. f_equal. by apply drop_S.
    + rewrite length_drop. lia.
    + apply lookup_lt_Some in Hm. unfold RLE.rle_decompress.
      apply Hpre. rewrite length_take. lia.
Qed.

Lemma rle_decompress_outcomes_witness :
  ((∃ y, RLE.rle_decompress [7; 2; 4; 9; 2; 3] = Ok y)
   ∨ RLE.rle_decompress [7; 2; 4; 9; 2; 3] = Raise IndexError)
  ∧ (RLE.rle_decompress [7; 2; 4; 9; 2; 3] = Raise IndexError
     ↔ ∃ pre tail y, [7; 2; 4; 9; 2; 3] = pre ++ 2 :: tail ∧ (length tail < 2)%nat
                      ∧ RLE.rle_decompress pre = Ok y).
Proof.
  apply (rle_decompress_outcomes [7; 2; 4; 9; 2; 3]). repeat constructor; lia.
Defined.

(** ** Resolver and codec together *)

Section pipeline.
Import Packaging.

Local Abbreviation resolved := (λ b : Z, if b =? 2 then 1 else b).

Lemma no_marker_lookup (x : list Z) : 2 ∉ x ↔ ∀ j, x !! j ≠ Some 2.
Proof.
  split.
  - intros Hx j Hj. apply Hx. by apply (list_elem_of_lookup_2 _ j).
  - intros Hx Hin. apply list_elem_of_lookup_1 in Hin as [j Hj]. by apply (Hx j).
Qed.

(** Compressing resolved bytes and decompressing gives them back. *)
Lemma resolved_roundtrip (x : list Z) :
  is_bytearray x →
  ∃ c, RLE.rle_compress (resolved <$> x) = Ok c
       ∧ RLE.rle_decompress c = Ok (resolved <$> x)
       ∧ (length c ≤ length x)%nat.
Proof.
  intros Hb.
  destruct (rle_compress_decompress (resolved <$> x)
              (resolved_bytes x Hb) (resolved_no_marker x))
    as (runs & Hc & Hx & Hruns & Hd).
  exists (flat_map RLE.run_code runs). split; [done|]. split; [done|].
  rewrite <- (length_fmap resolved x), Hx at 1.
  apply runs_code_length. eapply Forall_impl; [exact Hruns|].
  by intros r (_ & _ & ?).
Qed.

(** The record of one image, field by field. *)
Lemma package_image_fields (mode : bool) (image : list Z) (w h : Z) (raw : list Z) :
  is_bytearray image →
  let working := if mode then Alpha.get_alpha_values image else image in
  ∃ c, RLE.rle_compress (resolved <$> working) = Ok c
       ∧ RLE.rle_decompress c = Ok (resolved <$> working)
       ∧ (length c ≤ length working)%nat
       ∧ package_image mode image w h raw
           = Ok (if (length raw <? length c)%nat
                 then Entry raw w h (Z.of_nat (length working)) true false
                 else Entry c w h (Z.of_nat (length working)) false mode).
Proof.
  intros Hb working.
  assert (is_bytearray working) as Hw.
  { unfold working. destruct mode; [by apply get_alpha_values_bytes|done]. }
  destruct (resolved_roundtrip working Hw) as (c & Hc & Hd & Hlen).
  exists c. repeat split; try done.
  destruct (package_image_spec mode image w h raw Hb)
    as (adjusted & c' & Hfix & Hc' & ->).
  fold working in Hfix. rewrite fix_data_for_rle_bytes_spec in Hfix.
  injection Hfix as <-. rewrite Hc in Hc'. injection Hc' as <-.
  by rewrite length_fmap.
Qed.

End pipeline.

(** X4. For every bytearray, resolving the escape conflicts, compressing
    and decompressing succeed and give the resolved buffer: the input
    with every 2 replaced by 1, so the input itself when it holds no 2. *)
Theorem resolve_compress_decompress (x : list Z) :
  is_bytearray x →
  ∃ a c,
    Resolver.fix_data_for_rle_bytes x = Ok a
    ∧ RLE.rle_compress a = Ok c
    ∧ RLE.rle_decompress c = Ok a
    ∧ a = ((λ b, if b =? 2 then 1 else b) <$> x)
    ∧ (2 ∉ x → a = x).
Proof.
  intros Hb. destruct (resolved_roundtrip x Hb) as (c & Hc & Hd & _).
  eexists _, c. split; [apply fix_data_for_rle_bytes_spec|].
  repeat split; try done.
  intros Hx. apply resolved_id. by apply no_marker_lookup.
Qed.

Lemma resolve_compress_decompress_witness :
  ∃ a c,
    Resolver.fix_data_for_rle_bytes [2; 2; 2; 1; 0; 2] = Ok a
    ∧ RLE.rle_compress a = Ok c
    ∧ RLE.rle_decompress c = Ok a
    ∧ a = ((λ b, if b =? 2 then 1 else b) <$> [2; 2; 2; 1; 0; 2])
    ∧ (2 ∉ [2; 2; 2; 1; 0; 2] → a = [2; 2; 2; 1; 0; 2]).
Proof.
  apply (resolve_compress_decompress [2; 2; 2; 1; 0; 2]).
  repeat constructor; lia.
Defined.

(** X5. [fix_data_for_rle] keeps the length of its argument, returns
    equal contents exactly when the argument holds no 2, and applied to
    its own result changes nothing. *)
Theorem fix_data_for_rle_idempotent (x : list Z) :
  ∃ a, Resolver.fix_data_for_rle_bytes x = Ok a
       ∧ length a = length x
       ∧ (a = x ↔ 2 ∉ x)
       ∧ Resolver.fix_data_for_rle_bytes a = Ok a.
Proof.
  eexists. split; [apply fix_data_for_rle_bytes_spec|].
  split; [apply length_fmap|]. split.
  - split.
    + intros Heq. rewrite <- Heq. apply resolved_no_marker.
    + intros Hx. apply resolved_id. by apply no_marker_lookup.
  - rewrite fix_data_for_rle_bytes_spec. f_equal.
    apply resolved_id, no_marker_lookup, resolved_no_marker.
Qed.

(** X6. The record of an image keeps the width and height it was given
    and records as [decompressed_size] the length of the working buffer
    (a quarter of the image in alpha-only mode). When the record is not
    raw, its payload decompresses to exactly that many bytes: the
    resolved working buffer. When it is raw, the payload is the file. *)
Theorem package_image_record (mode : bool) (image : list Z) (w h : Z)
    (raw : list Z) :
  is_bytearray image →
  ∃ e, Packaging.package_image mode image w h raw = Ok e
    ∧ Packaging.width e = w ∧ Packaging.height e = h
    ∧ Packaging.decompressed_size e
        = Z.of_nat (if mode then length image `div` 4 else length image)
    ∧ (Packaging.is_raw_png e = true → Packaging.image_data e = raw)
    ∧ (Packaging.is_raw_png e = false →
         ∃ y, RLE.rle_decompress (Packaging.image_data e) = Ok y
              ∧ Z.of_nat (length y) = Packaging.decompressed_size e
              ∧ y = ((λ b, if b =? 2 then 1 else b) <$>
                       (if mode then Alpha.get_alpha_values image else image))).
Proof.
  intros Hb.
  destruct (package_image_fields mode image w h raw Hb) as (c & Hc & Hd & Hlen & ->).
  assert (length (if mode then Alpha.get_alpha_values image else image)
          = if mode then (length image `div` 4)%nat else length image) as Hwork.
  { destruct mode; [apply get_alpha_values_length|done]. }
  eexists. split; [done|].
  destruct (length raw <? length c)%nat; simpl; rewrite Hwork;
    repeat split; try done.
  intros _. eexists. split; [exact Hd|]. by rewrite length_fmap, Hwork.
Qed.

Lemma package_image_record_witness :
  ∃ e, Packaging.package_image true [9; 9; 9; 2; 9; 9; 9; 2; 9; 9; 9; 2; 1] 3 1
         [137; 80; 78; 71] = Ok e
    ∧ Packaging.width e = 3 ∧ Packaging.height e = 1
    ∧ Packaging.decompressed_size e
        = Z.of_nat (if true
                    then length [9; 9; 9; 2; 9; 9; 9; 2; 9; 9; 9; 2; 1] `div` 4
                    else length [9; 9; 9; 2; 9; 9; 9; 2; 9; 9; 9; 2; 1])
    ∧ (Packaging.is_raw_png e = true → Packaging.image_data e = [137; 80; 78; 71])
    ∧ (Packaging.is_raw_png e = false →
         ∃ y, RLE.rle_decompress (Packaging.image_data e) = Ok y
              ∧ Z.of_nat (length y) = Packaging.decompressed_size e
              ∧ y = ((λ b, if b =? 2 then 1 else b) <$>
                       (if true
                        then Alpha.get_alpha_values
                               [9; 9; 9; 2; 9; 9; 9; 2; 9; 9; 9; 2; 1]
                        else [9; 9; 9; 2; 9; 9; 9; 2; 9; 9; 9; 2; 1]))).
Proof.
  apply (package_image_record true [9; 9; 9; 2; 9; 9; 9; 2; 9; 9; 9; 2; 1] 3 1
           [137; 80; 78; 71]).
  repeat constructor; lia.
Defined.

(** ** The batch loops *)

Section batch.
Import Packaging Main.

Local Abbreviation resolved := (λ b : Z, if b =? 2 then 1 else b).

Lemma working_length (mode : bool) (image : list Z) :
  (length (if mode then Alpha.get_alpha_values image else image)
   ≤ length image)%nat.
Proof.
  destruct mode; [|done]. rewrite get_alpha_values_length.
  apply Nat.Div0.div_le_upper_bound. lia.
Qed.

(** One pass of the packaging loop: it never fails, and what it adds to
    [bytes_saved] lies between 0 and what it adds to [original_size]. *)
Lemma package_step_spec (mode : bool) (st : totals) (f : asset) :
  is_bytearray (decoded f) →
  ∃ st', package_step mode st f = Ok st'
    ∧ bytes_saved st ≤ bytes_saved st'
    ∧ bytes_saved st' - bytes_saved st ≤ original_size st' - original_size st
    ∧ image_data_map st'
        = if endswith (file_name f) ".png"
          then match package_image mode (decoded f) (decoded_width f)
                       (decoded_height f) (raw_png_data f) with
               | Ok e => Header.dict_set (image_data_map st) (file_name f) e
               | Raise _ => image_data_map st
               end
          else image_data_map st.
Proof.
  intros Hb. unfold package_step.
  destruct (endswith (file_name f) ".png").
  2:{ exists st. repeat split; try done; lia. }
  destruct (package_image_fields mode (decoded f) (decoded_width f)
              (decoded_height f) (raw_png_data f) Hb)
    as (c & _ & _ & Hlen & ->).
  pose proof (working_length mode (decoded f)) as Hw.
  rewrite bind_Ok. eexists. split; [done|].
  destruct (Nat.ltb_spec (length (raw_png_data f)) (length c));
    simpl; repeat split; try done; lia.
Qed.

Lemma package_loop_spec (mode : bool) (files : list asset) :
  Forall (λ f, is_bytearray (decoded f)) files →
  ∀ st, ∃ st', package_loop mode st files = Ok st'
    ∧ bytes_saved st ≤ bytes_saved st'
    ∧ bytes_saved st' - bytes_saved st ≤ original_size st' - original_size st.
Proof.
  induction 1 as [|f files Hf _ IH]; intros st; simpl.
  { exists st. repeat split; try done; lia. }
  destruct (package_step_spec mode st f Hf) as (st1 & -> & H1 & H2 & _).
  rewrite bind_Ok. destruct (IH st1) as (st' & -> & H3 & H4).
  exists st'. repeat split; try done; lia.
Qed.

(** Storing under a new key appends. *)
Lemma dict_set_new {V : Type} (d : list (string * V)) (k : string) (v : V) :
  k ∉ d.*1 → Header.dict_set d k v = d ++ [(k, v)].
Proof.
  induction d as [|[k' v'] d IH]; intros Hk; [done|]. simpl.
  rewrite fmap_cons, not_elem_of_cons in Hk. destruct Hk as [Hne Hk].
  destruct (String.eqb_spec k' k) as [->|_]; [done|]. by rewrite IH.
Qed.

(** With distinct file names, the map lists the [.png] files in order,
    each with the record of its own image. *)
Lemma package_loop_map (mode : bool) (files : list asset) :
  Forall (λ f, is_bytearray (decoded f)) files →
  NoDup (file_name <$> files) →
  ∀ st st',
    (∀ f, f ∈ files → file_name f ∉ (image_data_map st).*1) →
    package_loop mode st files = Ok st' →
    ∃ added,
      image_data_map st' = image_data_map st ++ added
      ∧ Forall2 (λ f kv,
           kv.1 = file_name f
           ∧ package_image mode (decoded f) (decoded_width f)
               (decoded_height f) (raw_png_data f) = Ok kv.2)
          (List.filter (λ f, endswith (file_name f) ".png") files) added.
Proof.
  induction 1 as [|f files Hf _ IH]; intros Hnd st st' Hfresh Hrun.
  { injection Hrun as <-. exists []. by rewrite app_nil_r. }
  rewrite fmap_cons in Hnd. apply NoDup_cons in Hnd as [Hnew Hnd].
  simpl in Hrun.
  destruct (package_step_spec mode st f Hf) as (st1 & Hstep & _ & _ & Hmap).
  rewrite Hstep, bind_Ok in Hrun. simpl.
  destruct (endswith (file_name f) ".png").
  - destruct (package_image_fields mode (decoded f) (decoded_width f)
                (decoded_height f) (raw_png_data f) Hf)
      as (c & _ & _ & _ & Hpkg).
    rewrite Hpkg in Hmap.
    rewrite dict_set_new in Hmap by (apply Hfresh; by left).
    destruct (IH Hnd st1 st') as (added & Hst' & Hall); [|done|].
    { intros g Hg. rewrite Hmap, fmap_app, elem_of_app. intros [Hin|Hin].
      - revert Hin. apply Hfresh. by right.
      - simpl in Hin. apply list_elem_of_singleton in Hin.
        apply Hnew. rewrite <- Hin. by apply list_elem_of_fmap_2. }
    eexists (_ :: added). split.
    + rewrite Hst', Hmap, <- app_assoc. done.
    + constructor; [|done]. by rewrite Hpkg.
  - destruct (IH Hnd st1 st') as (added & Hst' & Hall); [|done|].
    { intros g Hg. rewrite Hmap. apply Hfresh. by right. }
    exists added. by rewrite Hst', Hmap.
Qed.

(** The rebuilt pixels of a record that is not raw. *)
Lemma reconstruct_packaged (mode : bool) (image : list Z) (w h : Z) (raw : list Z) :
  is_bytearray image →
  ∃ e, package_image mode image w h raw = Ok e
    ∧ (is_raw_png e = true ∧ reconstruct mode e = Ok (WriteFile raw)
       ∨ is_raw_png e = false
         ∧ ∃ rgba,
             rgba = (if mode
                     then flat_map (λ a, [255; 255; 255; a])
                            (resolved <$> Alpha.get_alpha_values image)
                     else resolved <$> image)
             ∧ reconstruct mode e
                 = if Z.of_nat (length rgba) =? w * h * 4
                   then Ok (SaveImage w h rgba) else Raise ValueError).
Proof.
  intros Hb.
  destruct (package_image_fields mode image w h raw Hb) as (c & _ & Hd & _ & ->).
  eexists. split; [done|].
  destruct (length raw <? length c)%nat; [left; by split|].
  right. split; [done|]. eexists. split; [done|].
  unfold reconstruct. simpl. rewrite Hd, bind_Ok. destruct mode.
  - rewrite alpha_vals_to_image_data_spec, bind_Ok
      by by apply resolved_bytes, get_alpha_values_bytes.
    by destruct (_ =? _).
  - rewrite bind_Ok. by destruct (_ =? _).
Qed.

Lemma expand_length (alpha : list Z) :
  length (flat_map (λ a, [255; 255; 255; a]) alpha) = (4 * length alpha)%nat.
Proof. induction alpha as [|a alpha IH]; simpl; lia. Qed.

End batch.

(** X7. The packaging loop never fails on decoded images, and its
    aggregate [bytes_saved] is never negative and never more than
    [original_size]: a payload is never longer than the decoded image. *)
Theorem package_all_savings (mode : bool) (files : list Main.asset) :
  Forall (λ f, is_bytearray (Main.decoded f)) files →
  ∃ st, Main.package_all mode files = Ok st
        ∧ 0 ≤ Main.bytes_saved st ≤ Main.original_size st.
Proof.
  intros Hfiles.
  destruct (package_loop_spec mode files Hfiles (Main.Totals [] 0 0))
    as (st & Hrun & H1 & H2).
  exists st. split; [done|]. simpl in *. lia.
Qed.

Lemma package_all_savings_witness :
  ∃ st, Main.package_all true
          [Main.Asset "a.png" [255; 255; 255; 0; 255; 255; 255; 10] 2 1 [1; 2; 3];
           Main.Asset "notes.txt" [1; 2; 3] 1 1 [4]] = Ok st
        ∧ 0 ≤ Main.bytes_saved st ≤ Main.original_size st.
Proof.
  apply (package_all_savings true
           [Main.Asset "a.png" [255; 255; 255; 0; 255; 255; 255; 10] 2 1 [1; 2; 3];
            Main.Asset "notes.txt" [1; 2; 3] 1 1 [4]]).
  repeat constructor; simpl; lia.
Defined.

(** X8. For a directory listing with distinct file names, the packaging
    loop stores exactly the files whose name ends in [.png], in listing
    order, each under its own name with the record of its own image;
    other files are skipped. *)
Theorem package_all_map (mode : bool) (files : list Main.asset) (st : Main.totals) :
  Forall (λ f, is_bytearray (Main.decoded f)) files →
  NoDup (Main.file_name <$> files) →
  Main.package_all mode files = Ok st →
  Forall2 (λ f kv,
     kv.1 = Main.file_name f
     ∧ Packaging.package_image mode (Main.decoded f) (Main.decoded_width f)
         (Main.decoded_height f) (Main.raw_png_data f) = Ok kv.2)
    (List.filter (λ f, Main.endswith (Main.file_name f) ".png") files)
    (Main.image_data_map st).
Proof.
  intros Hfiles Hnd Hrun.
  destruct (package_loop_map mode files Hfiles Hnd (Main.Totals [] 0 0) st)
    as (added & Hmap & Hall); [|done|].
  - intros f _. simpl. apply not_elem_of_nil.
  - simpl in Hmap. by rewrite Hmap.
Qed.

Lemma package_all_map_witness :
  Forall2 (λ f kv,
     kv.1 = Main.file_name f
     ∧ Packaging.package_image true (Main.decoded f) (Main.decoded_width f)
         (Main.decoded_height f) (Main.raw_png_data f) = Ok kv.2)
    (List.filter (λ f, Main.endswith (Main.file_name f) ".png")
       [Main.Asset "a.png" [255; 255; 255; 0] 1 1 [1; 2; 3];
        Main.Asset "notes.txt" [1; 2; 3] 1 1 [4];
        Main.Asset "b.png" [0; 0; 0; 7] 1 1 []])
    [("a.png"%string, Packaging.Entry [0] 1 1 1 false true);
     ("b.png"%string, Packaging.Entry [] 1 1 1 true false)].
Proof.
  apply (package_all_map true
           [Main.Asset "a.png" [255; 255; 255; 0] 1 1 [1; 2; 3];
            Main.Asset "notes.txt" [1; 2; 3] 1 1 [4];
            Main.Asset "b.png" [0; 0; 0; 7] 1 1 []]
           (Main.Totals
              [("a.png"%string, Packaging.Entry [0] 1 1 1 false true);
               ("b.png"%string, Packaging.Entry [] 1 1 1 true false)] 7 8)).
  - repeat constructor; simpl; lia.
  - simpl.
    repeat (apply NoDup_cons_2;
            [rewrite ?not_elem_of_cons; repeat split;
             (discriminate || apply not_elem_of_nil)|]).
    apply NoDup_nil_2.
  - vm_compute. reflexivity.
Defined.

(** X9. Packaging an image and running the verification pass on its
    record: a raw record is written back as the file bytes; any other
    record is rebuilt as the image with every 2 replaced by 1 or, in
    alpha-only mode, as one white pixel per resolved alpha byte, and the
    pass raises [ValueError] exactly when that buffer is not
    [width * height * 4] bytes long. For an image of
    [width * height * 4] bytes the pass never fails. *)
Theorem package_then_reconstruct (mode : bool) (image : list Z) (w h : Z)
    (raw : list Z) :
  is_bytearray image →
  ∃ e, Packaging.package_image mode image w h raw = Ok e
    ∧ (Packaging.is_raw_png e = true → Main.reconstruct mode e = Ok (Main.WriteFile raw))
    ∧ (Packaging.is_raw_png e = false →
         ∃ rgba,
           rgba = (if mode
                   then flat_map (λ a, [255; 255; 255; a])
                          ((λ b, if b =? 2 then 1 else b) <$>
                             Alpha.get_alpha_values image)
                   else (λ b, if b =? 2 then 1 else b) <$> image)
           ∧ Main.reconstruct mode e
               = if Z.of_nat (length rgba) =? w * h * 4
                 then Ok (Main.SaveImage w h rgba) else Raise ValueError)
    ∧ (Z.of_nat (length image) = w * h * 4 →
         ∃ out, Main.reconstruct mode e = Ok out).
Proof.
  intros Hb.
  destruct (reconstruct_packaged mode image w h raw Hb)
    as (e & Hpkg & [[Hraw Hrec]|(Hraw & rgba & Hrgba & Hrec)]).
  - exists e. rewrite Hraw. repeat split; try done. intros _. by eexists.
  - exists e. rewrite Hraw. split; [done|]. split; [done|]. split.
    + intros _. by exists rgba.
    + intros Hlen. rewrite Hrec.
      assert (Z.of_nat (length rgba) = w * h * 4) as ->.
      { rewrite Hrgba. destruct mode; [|by rewrite length_fmap].
        rewrite expand_length, length_fmap, get_alpha_values_length.
        rewrite <- Hlen.
        assert (length image `mod` 4 = 0)%nat as Hmod.
        { assert (Z.of_nat (length image) mod 4 = 0) as Hz
            by (rewrite Hlen; apply Z.mod_mul; lia).
          apply Nat2Z.inj. by rewrite Nat2Z.inj_mod. }
        pose proof (Nat.div_mod_eq (length image) 4) as Hdiv.
        rewrite Hmod in Hdiv. f_equal. lia. }
      rewrite Z.eqb_refl. by eexists.
Qed.

Lemma package_then_reconstruct_witness :
  ∃ e, Packaging.package_image true [9; 9; 9; 2; 9; 9; 9; 7] 2 1 [1; 2; 3] = Ok e
    ∧ (Packaging.is_raw_png e = true →
         Main.reconstruct true e = Ok (Main.WriteFile [1; 2; 3]))
    ∧ (Packaging.is_raw_png e = false →
         ∃ rgba,
           rgba = (if true
                   then flat_map (λ a, [255; 255; 255; a])
                          ((λ b, if b =? 2 then 1 else b) <$>
                             Alpha.get_alpha_values [9; 9; 9; 2; 9; 9; 9; 7])
                   else (λ b, if b =? 2 then 1 else b) <$> [9; 9; 9; 2; 9; 9; 9; 7])
           ∧ Main.reconstruct true e
               = if Z.of_nat (length rgba) =? 2 * 1 * 4
                 then Ok (Main.SaveImage 2 1 rgba) else Raise ValueError)
    ∧ (Z.of_nat (length [9; 9; 9; 2; 9; 9; 9; 7]) = 2 * 1 * 4 →
         ∃ out, Main.reconstruct true e = Ok out).
Proof.
  apply (package_then_reconstruct true [9; 9; 9; 2; 9; 9; 9; 7] 2 1 [1; 2; 3]).
  repeat constructor; lia.
Defined.

(** ** [bytearray_differences] *)

Section differences.
Import Tools.

(** The positions at which two buffers differ, counted over the shorter. *)
Lemma differing_none (l1 l2 : list Z) :
  (length l1 ≤ length l2)%nat →
  length (filter (λ p, p.1 ≠ p.2) (zip l1 l2)) = 0%nat ↔ l1 = take (length l1) l2.
Proof.
  revert l2. induction l1 as [|a l1 IH]; intros l2 Hlen; [done|].
  destruct l2 as [|b l2]; simpl in Hlen; [lia|]. simpl.
  rewrite filter_cons. simpl. destruct (decide (a ≠ b)) as [Hne|Heq].
  - simpl. split; [lia|]. intros [= ? _]. done.
  - assert (a = b) as -> by (destruct (decide (a = b)); done).
    rewrite (IH l2) by lia. split; [by intros <-|by intros [= ?]].
Qed.

(** The loop over the positions [s, s + n) when both buffers are long
    enough: it adds the number of differing positions to the counter. *)
Lemma differences_loop_count (b1 b2 : list Z) :
  ∀ n s num text,
    (s + n = length b1)%nat → (length b1 ≤ length b2)%nat →
    ∃ text',
      differences_loop b1 b2 (seq s n) num text
        = Ok (num + Z.of_nat (length (filter (λ p, p.1 ≠ p.2)
                                        (zip (drop s b1) (drop s b2)))),
              text').
Proof.
  induction n as [|n IH]; intros s num text Hs Hlen.
  { exists text. simpl. rewrite (drop_ge b1) by lia. simpl. f_equal. f_equal. lia. }
  destruct (lookup_lt_is_Some_2 b1 s) as [a Ha]; [lia|].
  destruct (lookup_lt_is_Some_2 b2 s) as [b Hb]; [lia|].
  simpl. rewrite (getitem_Some _ _ _ Ha), bind_Ok, (getitem_Some _ _ _ Hb), bind_Ok.
  rewrite (drop_S b1 a s Ha), (drop_S b2 b s Hb). simpl.
  rewrite filter_cons. simpl.
  destruct (Z.eqb_spec a b) as [->|Hne]; simpl.
  - destruct (decide (b ≠ b)); [done|]. apply IH; lia.
  - destruct (decide (a ≠ b)); [|done].
    edestruct (IH (S s) (num + 1)) as [text' ->]; [lia|lia|].
    exists text'. f_equal. f_equal. simpl length. lia.
Qed.

(** The loop reaches the end of a shorter second buffer and fails. *)
Lemma differences_loop_short (b1 b2 : list Z) :
  ∀ n s num text,
    (s + n ≤ length b1)%nat → (s ≤ length b2)%nat → (length b2 < s + n)%nat →
    differences_loop b1 b2 (seq s n) num text = Raise IndexError.
Proof.
  induction n as [|n IH]; intros s num text Hs Hs2 Hlen; [lia|].
  destruct (lookup_lt_is_Some_2 b1 s) as [a Ha]; [lia|].
  simpl. rewrite (getitem_Some _ _ _ Ha), bind_Ok.
  destruct (Nat.lt_ge_cases s (length b2)) as [Hlt|Hge].
  - destruct (lookup_lt_is_Some_2 b2 s Hlt) as [b Hb].
    rewrite (getitem_Some _ _ _ Hb), bind_Ok.
    destruct (negb (a =? b)); apply IH; lia.
  - by rewrite getitem_None by by apply lookup_ge_None.
Qed.

End differences.

(** X10. [bytearray_differences] raises [IndexError] whenever its second
    argument is shorter than its first. *)
Theorem bytearray_differences_short (b1 b2 : list Z) :
  (length b2 < length b1)%nat →
  Tools.bytearray_differences b1 b2 = Raise IndexError.
Proof.
  intros Hlen. unfold Tools.bytearray_differences.
  by rewrite differences_loop_short by lia.
Qed.

Lemma bytearray_differences_short_witness :
  Tools.bytearray_differences [1; 2; 3] [1; 2] = Raise IndexError.
Proof. apply (bytearray_differences_short [1; 2; 3] [1; 2]). simpl. lia. Defined.

(** X11. When the second argument is at least as long as the first,
    [bytearray_differences] returns a text: [No differences found!] when
    no position of the first argument differs, which is exactly when the
    first argument is a prefix of the second, also a proper one; otherwise
    a text that starts with the number of differing positions. *)
Theorem bytearray_differences_report (b1 b2 : list Z) :
  (length b1 ≤ length b2)%nat →
  ∃ k text,
    k = length (filter (λ p, p.1 ≠ p.2) (zip b1 b2))
    ∧ (k = 0%nat ↔ b1 = take (length b1) b2)
    ∧ Tools.bytearray_differences b1 b2
        = Ok (if (k =? 0)%nat then "No differences found!"%string
              else (Header.str (Z.of_nat k) ++ " differences found:"
                      ++ Header.newline ++ text)%string).
Proof.
  intros Hlen. unfold Tools.bytearray_differences.
  edestruct (differences_loop_count b1 b2 (length b1) 0%nat 0) as [text ->];
    [done|done|].
  eexists _, text. split; [reflexivity|]. split; [by apply differing_none|].
  rewrite bind_Ok. rewrite !drop_0. simpl.
  destruct (length (filter _ (zip b1 b2))) as [|k]; [done|].
  reflexivity.
Qed.

Lemma bytearray_differences_report_witness :
  ∃ k text,
    k = length (filter (λ p, p.1 ≠ p.2) (zip [1; 2; 3] [1; 2; 3; 4]))
    ∧ (k = 0%nat ↔ [1; 2; 3] = take (length [1; 2; 3]) [1; 2; 3; 4])
    ∧ Tools.bytearray_differences [1; 2; 3] [1; 2; 3; 4]
        = Ok (if (k =? 0)%nat then "No differences found!"%string
              else (Header.str (Z.of_nat k) ++ " differences found:"
                      ++ Header.newline ++ text)%string).
Proof.
  apply (bytearray_differences_report [1; 2; 3] [1; 2; 3; 4]). simpl. lia.
Defined.

(** ** What the parser returns *)

(** X12. Every record [extract_image_data] returns, on any header text,
    has [is_raw_png = True]: the flag is [bool] of the text of a group of
    digits, which is never empty. *)
Theorem extract_image_data_flags (header : string)
    (t : list (string * Header.extracted)) :
  Header.extract_image_data header = Ok t →
  Forall (λ kv, Header.x_is_raw_png kv.2 = true) t.
Proof. apply extract_loop_raw. constructor. Qed.

Lemma extract_image_data_flags_witness :
  Forall (λ kv, Header.x_is_raw_png kv.2 = true)
    [("a.png"%string, Header.Extracted [0; 10; 7] 3 3 64 32 true true)].
Proof.
  apply (extract_image_data_flags
           (Header.generate_header
              [("a.png"%string, Packaging.Entry [0; 10; 7] 64 32 2048 false false)])).
  vm_compute. reflexivity.
Defined.


(** ** Writing a table and reading it back *)

Section header_roundtrip.
Import Header.

Local Abbreviation chars := list_ascii_of_string.

Lemma chars_app (s1 s2 : string) : chars (s1 ++ s2) = chars s1 ++ chars s2.
Proof. induction s1 as [|c s1 IH]; simpl; [done|by rewrite IH]. Qed.

(** *** Decimal text *)

Lemma uint_chars_digits (d : Decimal.uint) :
  Forall (λ c, is_digit c = true) (chars (NilEmpty.string_of_uint d)).
Proof. induction d; simpl; constructor; done. Qed.

Lemma parse_digits_acc (d : Decimal.uint) :
  ∀ acc : positive,
    parse_digits (chars (NilEmpty.string_of_uint d)) (Z.pos acc) true
      = Some (Z.pos (Pos.of_uint_acc d acc)).
Proof.
  induction d; intros acc; simpl; [done|..];
    match goal with
    | |- parse_digits _ ?z true = Some (Z.pos (Pos.of_uint_acc _ ?p)) =>
        replace z with (Z.pos p); [apply IHd|]
    end;
    match goal with
    | |- context [nat_of_ascii ?c] =>
        let n := eval vm_compute in (nat_of_ascii c) in
        change (nat_of_ascii c) with n
    end; lia.
Qed.

Lemma parse_digits_uint (d : Decimal.uint) :
  d ≠ Decimal.Nil →
  ∀ after, parse_digits (chars (NilEmpty.string_of_uint d)) 0 after
    = Some (Z.of_N (Pos.of_uint d)).
Proof.
  induction d; intros Hnil after; [done|..]; simpl;
    try (match goal with
         | |- parse_digits _ ?z true = Some (Z.pos (Pos.of_uint_acc _ ?p)) =>
             replace z with (Z.pos p) by done; apply parse_digits_acc
         end).
  destruct d; try (apply IHd; done). done.
Qed.

(** The text of a natural number: its digits. *)
Lemma str_digits (n : Z) :
  0 ≤ n →
  chars (str n) ≠ []
  ∧ Forall (λ c, is_digit c = true) (chars (str n))
  ∧ parse_digits (chars (str n)) 0 false = Some n.
Proof.
  intros Hn. unfold str.
  assert (∃ d, Z.to_int n = Decimal.Pos d ∧ d ≠ Decimal.Nil
               ∧ Z.of_N (Pos.of_uint d) = n) as (d & Hd & Hnil & Hval).
  { pose proof (DecimalZ.of_to n) as Hof. destruct n as [|p|p]; [| |lia].
    - by exists Decimal.zero.
    - exists (Pos.to_uint p). split; [done|]. split; [apply DecimalPos.Unsigned.to_uint_nonnil|].
      exact Hof. }
  rewrite Hd. simpl.
  assert (NilZero.string_of_uint d = NilEmpty.string_of_uint d) as ->
    by by destruct d.
  split; [by destruct d|]. split; [apply uint_chars_digits|].
  etransitivity; [by apply parse_digits_uint|by rewrite Hval].
Qed.

(** A digit is none of the characters the format gives a meaning to. *)
Lemma digit_plain (c : ascii) :
  is_digit c = true →
  is_space c = false ∧ c ≠ ","%char ∧ c ≠ "010"%char ∧ c ≠ "034"%char
  ∧ c ≠ "}"%char ∧ c ≠ "-"%char ∧ c ≠ "+"%char ∧ c ≠ "_"%char.
Proof.
  destruct c as [[] [] [] [] [] [] [] []]; vm_compute; intros Hd;
    try discriminate Hd; repeat split; discriminate.
Qed.

Lemma lstrip_spaces (ws l : list ascii) :
  Forall (λ c, c = " "%char) ws →
  (∀ c l', l = c :: l' → is_space c = false) →
  lstrip (ws ++ l) = l.
Proof.
  intros Hws Hl. induction Hws as [|c ws -> _ IH]; simpl; [|done].
  destruct l as [|c l']; [done|]. simpl. by rewrite (Hl c l' eq_refl).
Qed.

(** [strip] takes the blanks around a run of digits away. *)
Lemma strip_digits (pre post ds : list ascii) :
  Forall (λ c, c = " "%char) pre → Forall (λ c, c = " "%char) post →
  Forall (λ c, is_digit c = true) ds → ds ≠ [] →
  strip (pre ++ ds ++ post) = ds.
Proof.
  intros Hpre Hpost Hds Hne. unfold strip.
  assert (∀ l, Forall (λ c, is_digit c = true) l →
               ∀ c l', l = c :: l' → is_space c = false) as Hhead.
  { intros l Hl c l' ->. apply Forall_cons_1 in Hl as [Hc _].
    by apply digit_plain in Hc as [? _]. }
  destruct ds as [|d ds]; [done|].
  rewrite (lstrip_spaces pre _ Hpre).
  2:{ intros c l' [= <- _]. by apply (Hhead (d :: ds) Hds d ds). }
  rewrite reverse_app.
  rewrite (lstrip_spaces (reverse post) (reverse (d :: ds))).
  - apply reverse_involutive.
  - by apply Forall_reverse.
  - apply Hhead. by apply Forall_reverse.
Qed.

(** [int] reads back the text of a natural number, blanks around it or
    not. *)
Lemma int_digits (pre post : list ascii) (n : Z) :
  0 ≤ n →
  Forall (λ c, c = " "%char) pre → Forall (λ c, c = " "%char) post →
  int (string_of_list_ascii (pre ++ chars (str n) ++ post)) = Ok n.
Proof.
  intros Hn Hpre Hpost. destruct (str_digits n Hn) as (Hne & Hds & Hval).
  unfold int. rewrite list_ascii_of_string_of_list_ascii.
  rewrite strip_digits by done.
  destruct (chars (str n)) as [|c cs] eqn:Hcs; [done|].
  apply Forall_cons_1 in Hds as Hc. destruct Hc as [Hc _].
  apply digit_plain in Hc as (_ & _ & _ & _ & _ & Hminus & Hplus & _).
  rewrite (proj2 (Ascii.eqb_neq _ _) Hminus), (proj2 (Ascii.eqb_neq _ _) Hplus).
  by rewrite Hval.
Qed.

Lemma int_str (n : Z) : 0 ≤ n → int (str n) = Ok n.
Proof.
  intros Hn. rewrite <- (string_of_list_ascii_of_string (str n)).
  rewrite <- (app_nil_r (chars (str n))). by apply (int_digits [] []).
Qed.

(** *** Splitting *)

Lemma split_chars_last (sep : ascii) (cs cur : list ascii) :
  sep ∉ cs → split_chars sep cs cur = [reverse cur ++ cs].
Proof.
  revert cur. induction cs as [|c cs IH]; intros cur Hsep; simpl.
  { by rewrite app_nil_r. }
  rewrite not_elem_of_cons in Hsep. destruct Hsep as [Hne Hsep].
  rewrite (proj2 (Ascii.eqb_neq c sep)) by done.
  rewrite IH by done. by rewrite reverse_cons, <- app_assoc.
Qed.

Lemma split_chars_first (sep : ascii) (a b cur : list ascii) :
  sep ∉ a →
  split_chars sep (a ++ sep :: b) cur = (reverse cur ++ a) :: split_chars sep b [].
Proof.
  revert cur. induction a as [|c a IH]; intros cur Hsep; simpl.
  { by rewrite Ascii.eqb_refl, app_nil_r. }
  rewrite not_elem_of_cons in Hsep. destruct Hsep as [Hne Hsep].
  rewrite (proj2 (Ascii.eqb_neq c sep)) by done.
  rewrite IH by done. by rewrite reverse_cons, <- app_assoc.
Qed.

Lemma digits_without (x : ascii) (ds : list ascii) :
  is_digit x = false → Forall (λ c, is_digit c = true) ds → x ∉ ds.
Proof.
  intros Hx Hds Hin. rewrite Forall_forall in Hds.
  specialize (Hds x Hin). congruence.
Qed.

(** The comma-separated decimal bytes, with the blank the generator puts
    after them and possibly one before, read back as the bytes. *)
Lemma split_join_ints (bytes : list Z) :
  bytes ≠ [] → Forall (λ b, 0 ≤ b) bytes →
  ∀ pre, Forall (λ c, c = " "%char) pre →
    map_result int
      (map string_of_list_ascii
         (split_chars ","%char
            (pre ++ chars (join "," (map str bytes)) ++ [" "%char]) []))
    = Ok bytes.
Proof.
  intros Hne Hpos. induction Hpos as [|b bytes Hb Hpos IH]; [done|].
  intros pre Hpre. destruct (str_digits b Hb) as (_ & Hds & _).
  assert (","%char ∉ pre ++ chars (str b)) as Hcomma.
  { rewrite not_elem_of_app. split.
    - intros Hin. rewrite Forall_forall in Hpre. by specialize (Hpre _ Hin).
    - by apply digits_without. }
  destruct bytes as [|b2 bytes].
  - simpl map. unfold join. simpl String.concat.
    rewrite split_chars_last.
    + simpl. rewrite int_digits by (done || by repeat constructor). done.
    + rewrite app_assoc, not_elem_of_app. split; [done|].
      rewrite not_elem_of_cons. split; [done|apply not_elem_of_nil].
  - change (join "," (map str (b :: b2 :: bytes)))
      with (str b ++ "," ++ join "," (map str (b2 :: bytes)))%string.
    rewrite !chars_app. change (chars ",") with [","%char].
    rewrite <- !app_assoc. rewrite (app_assoc pre). cbn [app].
    rewrite split_chars_first by done. simpl.
    rewrite <- (app_nil_r (chars (str b))), int_digits
      by (done || constructor).
    rewrite bind_Ok. specialize (IH ltac:(done) [] ltac:(constructor)).
    simpl in IH. rewrite IH. done.
Qed.

Lemma bytearray_of_bytes (bytes : list Z) :
  is_bytearray bytes → bytearray_of bytes = Ok bytes.
Proof.
  induction 1 as [|b bytes Hb _ IH]; [done|]. simpl.
  by rewrite is_byte_true, IH by done.
Qed.

(** *** Matching the pattern *)

Lemma match_lits (s : list ascii) (p : list re_item) (cs : list ascii) :
  match_here (map Lit s ++ p) (s ++ cs) = match_here p cs.
Proof. induction s as [|c s IH]; simpl; [done|]. by rewrite Ascii.eqb_refl. Qed.

(** A lazy group in front of a literal [x] takes the text up to the
    first [x], when the rest of the pattern matches from there. *)
Lemma match_lazy (x : ascii) (p : list re_item) (t cs : list ascii)
    (groups : list string) :
  x ∉ t → "010"%char ∉ t →
  match_here (Lit x :: p) cs = Some groups →
  match_here (LazyAny :: Lit x :: p) (t ++ cs)
    = Some (string_of_list_ascii t :: groups).
Proof.
  intros Hx Hnl Hrest.
  change (string_of_list_ascii t) with (string_of_list_ascii (reverse [] ++ t)).
  cbn [match_here]. generalize (@nil ascii) as taken.
  induction t as [|c t IH]; intros taken.
  - rewrite app_nil_r. destruct cs as [|c cs]; [done|].
    simpl in Hrest |- *. by rewrite Hrest.
  - rewrite not_elem_of_cons in Hx, Hnl.
    destruct Hx as [Hcx Hx], Hnl as [Hcn Hnl].
    simpl. rewrite (proj2 (Ascii.eqb_neq c x)) by done.
    rewrite (proj2 (Ascii.eqb_neq c "010")) by done.
    rewrite (IH Hx Hnl (c :: taken)).
    by rewrite reverse_cons, <- app_assoc.
Qed.

(** A group of digits takes a whole run of digits, when the rest of the
    pattern matches after it. *)
Lemma match_digits (p : list re_item) (ds cs : list ascii)
    (groups : list string) :
  ds ≠ [] → Forall (λ c, is_digit c = true) ds →
  (∀ c cs', cs = c :: cs' → is_digit c = false) →
  match_here p cs = Some groups →
  match_here (Digits :: p) (ds ++ cs) = Some (string_of_list_ascii ds :: groups).
Proof.
  intros Hne Hds Hstop Hrest.
  change (string_of_list_ascii ds) with (string_of_list_ascii (reverse [] ++ ds)).
  cbn [match_here]. generalize (@nil ascii) as taken.
  induction Hds as [|d ds Hd Hds IH]; [done|]. intros taken.
  simpl. rewrite Hd. destruct ds as [|d' ds].
  - simpl. destruct cs as [|c cs].
    + rewrite Hrest. simpl. by rewrite reverse_cons.
    + rewrite (Hstop c cs eq_refl), Hrest. simpl. by rewrite reverse_cons.
  - rewrite (IH ltac:(done) (d :: taken)).
    by rewrite reverse_cons, <- app_assoc.
Qed.

Lemma search_skip (x c : ascii) (p : list re_item) (cs : list ascii) :
  c ≠ x →
  search_chars (Lit x :: p) (c :: cs) = search_chars (Lit x :: p) cs.
Proof. intros Hne. simpl. by rewrite (proj2 (Ascii.eqb_neq c x)). Qed.

Lemma search_hit (p : list re_item) (cs : list ascii) (groups : list string) :
  match_here p cs = Some groups → search_chars p cs = Some groups.
Proof. intros Hm. destruct cs; simpl; by rewrite Hm. Qed.

Lemma match_lit (x : ascii) (p : list re_item) (cs : list ascii) :
  match_here (Lit x :: p) (x :: cs) = match_here p cs.
Proof. simpl. by rewrite Ascii.eqb_refl. Qed.

(** The byte list of a line holds digits and commas only. *)
Lemma join_plain (bytes : list Z) :
  Forall (λ b, 0 ≤ b) bytes →
  Forall (λ c, is_digit c = true ∨ c = ","%char)
    (chars (join "," (map str bytes))).
Proof.
  induction 1 as [|b bytes Hb Hpos IH]; [constructor|].
  destruct (str_digits b Hb) as (_ & Hds & _).
  assert (Forall (λ c, is_digit c = true ∨ c = ","%char) (chars (str b))) as Hb'.
  { eapply Forall_impl; [exact Hds|]. by left. }
  destruct bytes as [|b2 bytes]; [done|].
  change (join "," (map str (b :: b2 :: bytes)))
    with (str b ++ "," ++ join "," (map str (b2 :: bytes)))%string.
  rewrite !chars_app. apply Forall_app. split; [done|].
  apply Forall_app. split; [|done].
  change (chars ",") with [","%char]. constructor; [by right|constructor].
Qed.

Lemma join_without (x : ascii) (bytes : list Z) :
  Forall (λ b, 0 ≤ b) bytes →
  is_digit x = false → x ≠ ","%char →
  x ∉ chars (join "," (map str bytes)).
Proof.
  intros Hpos Hd Hc Hin. pose proof (join_plain bytes Hpos) as Hall.
  rewrite Forall_forall in Hall. destruct (Hall x Hin); congruence.
Qed.

Lemma byte_list_without (x : ascii) (bytes : list Z) :
  Forall (λ b, 0 ≤ b) bytes →
  is_digit x = false → x ≠ ","%char → x ≠ " "%char →
  x ∉ " "%char :: chars (join "," (map str bytes)) ++ [" "%char].
Proof.
  intros Hpos Hd Hc Hs. rewrite not_elem_of_cons, not_elem_of_app.
  split; [done|]. split; [by apply join_without|].
  rewrite not_elem_of_cons. split; [done|apply not_elem_of_nil].
Qed.

(** The end of a line: the two flags and the closing braces. *)
Lemma match_flags (r a : bool) :
  match_here (map Lit (chars ", ") ++ LazyAny :: map Lit (chars " }"))
    (chars ", " ++ chars (str_bool r) ++ chars ", " ++ chars (str_bool a)
       ++ chars " } },")
  = Some [(str_bool r ++ ", " ++ str_bool a)%string].
Proof. destruct r, a; vm_compute; reflexivity. Qed.

Lemma header_line_chars (file_name : string) (e : Packaging.entry) :
  chars (header_line file_name e) = record_chars file_name e ++ ["010"%char].
Proof.
  unfold header_line, record_chars. rewrite !chars_app.
  change (chars quote) with ["034"%char].
  change (chars newline) with ["010"%char].
  change (chars "{ ") with ["{"%char; " "%char].
  change (chars "] { ") with (chars "] {" ++ [" "%char]).
  change (chars " }, ") with (" "%char :: "}"%char :: chars ", ").
  repeat first [rewrite <- app_assoc | progress cbn [app]]. reflexivity.
Qed.

(** The groups the pattern finds in the line of a record. *)
Lemma search_record (file_name : string) (e : Packaging.entry) :
  "034"%char ∉ chars file_name → "010"%char ∉ chars file_name →
  Forall (λ b, 0 ≤ b) (Packaging.image_data e) →
  0 ≤ Packaging.width e → 0 ≤ Packaging.height e →
  0 ≤ Packaging.decompressed_size e →
  search_chars pattern (record_chars file_name e)
  = Some [ file_name;
           str (Z.of_nat (length (Packaging.image_data e)));
           string_of_list_ascii
             (" "%char :: chars (join "," (map str (Packaging.image_data e)))
                ++ [" "%char]);
           str (Z.of_nat (length (Packaging.image_data e)));
           str (Packaging.width e); str (Packaging.height e);
           str (Packaging.decompressed_size e);
           (str_bool (Packaging.is_raw_png e) ++ ", "
              ++ str_bool (Packaging.alpha_only e))%string ].
Proof.
  intros Hq Hnl Hbytes Hw Hh Hs.
  destruct (str_digits (Z.of_nat (length (Packaging.image_data e))) ltac:(lia))
    as (Hlen1 & Hlen2 & _).
  destruct (str_digits _ Hw) as (Hw1 & Hw2 & _).
  destruct (str_digits _ Hh) as (Hh1 & Hh2 & _).
  destruct (str_digits _ Hs) as (Hs1 & Hs2 & _).
  rewrite <- (string_of_list_ascii_of_string file_name) at 2.
  rewrite <- (string_of_list_ascii_of_string
                (str (Z.of_nat (length (Packaging.image_data e))))).
  rewrite <- (string_of_list_ascii_of_string (str (Packaging.width e))).
  rewrite <- (string_of_list_ascii_of_string (str (Packaging.height e))).
  rewrite <- (string_of_list_ascii_of_string (str (Packaging.decompressed_size e))).
  change pattern with
    (Lit "034" :: LazyAny :: Lit "034"
       :: map Lit (chars ", { new unsigned char[") ++ Digits
       :: map Lit (chars "] {") ++ LazyAny :: Lit "}"
       :: map Lit (chars ", ") ++ Digits
       :: map Lit (chars ", ") ++ Digits
       :: map Lit (chars ", ") ++ Digits
       :: map Lit (chars ", ") ++ Digits
       :: map Lit (chars ", ") ++ LazyAny :: map Lit (chars " }")).
  unfold record_chars.
  rewrite search_skip by discriminate. rewrite search_skip by discriminate.
  apply search_hit. rewrite match_lit.
  apply match_lazy; [done|done|]. rewrite match_lit, match_lits.
  apply match_digits; [done|done|by intros c cs' [= <- _]|]. rewrite match_lits.
  apply match_lazy; [by apply byte_list_without|by apply byte_list_without|].
  rewrite match_lit, match_lits.
  apply match_digits; [done|done|by intros c cs' [= <- _]|]. rewrite match_lits.
  apply match_digits; [done|done|by intros c cs' [= <- _]|]. rewrite match_lits.
  apply match_digits; [done|done|by intros c cs' [= <- _]|]. rewrite match_lits.
  apply match_digits; [done|done|by intros c cs' [= <- _]|].
  apply match_flags.
Qed.

(** *** One line *)

(** What the parser stores for a record: the payload and its length, the
    length again as width, the width as height, the height as original
    size, and both flags true. *)
Lemma parse_record_line (d : list (string * extracted)) (file_name : string)
    (e : Packaging.entry) :
  "034"%char ∉ chars file_name → "010"%char ∉ chars file_name →
  is_bytearray (Packaging.image_data e) →
  0 ≤ Packaging.width e → 0 ≤ Packaging.height e →
  0 ≤ Packaging.decompressed_size e →
  parse_line d (string_of_list_ascii (record_chars file_name e))
  = if decide (Packaging.image_data e = []) then Raise ValueError
    else Ok (dict_set d file_name
               (Extracted (Packaging.image_data e)
                  (Z.of_nat (length (Packaging.image_data e)))
                  (Z.of_nat (length (Packaging.image_data e)))
                  (Packaging.width e) (Packaging.height e) true true)).
Proof.
  intros Hq Hnl Hb Hw Hh Hs.
  assert (Forall (λ b, 0 ≤ b) (Packaging.image_data e)) as Hpos.
  { eapply Forall_impl; [exact Hb|]. simpl. intros; lia. }
  unfold parse_line, re_search.
  rewrite list_ascii_of_string_of_list_ascii, search_record by done.
  unfold group. cbn [lookup list_lookup Nat.sub].
  rewrite !bind_Ok. unfold split.
  rewrite list_ascii_of_string_of_list_ascii.
  destruct (decide (Packaging.image_data e = [])) as [Hempty|Hne].
  { rewrite Hempty. reflexivity. }
  change (" "%char :: ?l) with ([" "%char] ++ l).
  rewrite (split_join_ints _ Hne Hpos [" "%char]) by by repeat constructor.
  rewrite bind_Ok, (bytearray_of_bytes _ Hb), bind_Ok.
  repeat first [rewrite bind_Ok; cbv beta | rewrite int_str by (done || lia)].
  cbv zeta. f_equal. f_equal. f_equal.
  - destruct (str_digits _ Hs) as (Hne' & _).
    by destruct (str (Packaging.decompressed_size e)).
  - by destruct (Packaging.is_raw_png e).
Qed.

(** *** The lines of a header *)

Lemma foldl_header_chars (t : list (string * Packaging.entry)) (acc : string) :
  chars (foldl (λ header '(file_name, e), header ++ header_line file_name e)%string
           acc t)
  = chars acc ++ flat_map (λ kv, record_chars kv.1 kv.2 ++ ["010"%char]) t.
Proof.
  revert acc. induction t as [|[k e] t IH]; intros acc; simpl.
  { by rewrite app_nil_r. }
  by rewrite IH, chars_app, header_line_chars, <- app_assoc.
Qed.

Lemma generate_header_chars (t : list (string * Packaging.entry)) :
  chars (generate_header t)
  = chars preamble
      ++ flat_map (λ kv, record_chars kv.1 kv.2 ++ ["010"%char]) t ++ chars "};".
Proof.
  unfold generate_header. by rewrite chars_app, foldl_header_chars, <- app_assoc.
Qed.

(** The preamble is 16 lines; the last two are an empty line and the
    opening of the map. *)
Lemma split_preamble (rest : list ascii) :
  split_chars "010" (chars preamble ++ rest) []
  = removelast (split_chars "010" (chars preamble) [])
      ++ split_chars "010" rest [].
Proof. revert rest. vm_compute. reflexivity. Qed.

Lemma preamble_lines :
  length (removelast (split_chars "010" (chars preamble) [])) = 16%nat
  ∧ drop 14 (removelast (split_chars "010" (chars preamble) []))
    = [ []; chars "std::map<std::string, ImageData> imageMap = {" ].
Proof. split; vm_compute; reflexivity. Qed.

Lemma literal_without (x : ascii) (l : list ascii) :
  forallb (λ c, negb (Ascii.eqb c x)) l = true → x ∉ l.
Proof.
  intros Hall Hin. rewrite forallb_forall in Hall.
  apply list_elem_of_In, Hall in Hin. by rewrite Ascii.eqb_refl in Hin.
Qed.

(** The line of a record holds no newline. *)
Lemma record_chars_one_line (file_name : string) (e : Packaging.entry) :
  "010"%char ∉ chars file_name →
  Forall (λ b, 0 ≤ b) (Packaging.image_data e) →
  0 ≤ Packaging.width e → 0 ≤ Packaging.height e →
  0 ≤ Packaging.decompressed_size e →
  "010"%char ∉ record_chars file_name e.
Proof.
  intros Hnl Hbytes Hw Hh Hs. unfold record_chars.
  destruct (str_digits (Z.of_nat (length (Packaging.image_data e))) ltac:(lia))
    as (_ & Hlen & _).
  destruct (str_digits _ Hw) as (_ & Hw' & _).
  destruct (str_digits _ Hh) as (_ & Hh' & _).
  destruct (str_digits _ Hs) as (_ & Hs' & _).
  repeat first
    [ rewrite not_elem_of_cons; split; [discriminate|]
    | rewrite not_elem_of_app; split ];
    first [ done
          | apply not_elem_of_nil
          | by apply join_without
          | by apply digits_without
          | by destruct (Packaging.is_raw_png e); apply literal_without
          | by destruct (Packaging.alpha_only e); apply literal_without
          | by apply literal_without ].
Qed.

Lemma split_records (t : list (string * Packaging.entry)) (rest : list ascii) :
  Forall (λ kv, "010"%char ∉ record_chars kv.1 kv.2) t →
  split_chars "010" (flat_map (λ kv, record_chars kv.1 kv.2 ++ ["010"%char]) t ++ rest) []
  = map (λ kv, record_chars kv.1 kv.2) t ++ split_chars "010" rest [].
Proof.
  induction 1 as [|kv t Hkv _ IH]; [done|]. cbn [flat_map map].
  rewrite <- !app_assoc. cbn [app]. by rewrite split_chars_first, IH.
Qed.

(** The lines of a generated header from line 14 on: an empty line, the
    opening of the map, one line per record, then whatever follows the
    records. *)
Lemma header_lines (t : list (string * Packaging.entry)) (rest : list ascii) :
  Forall (λ kv, "010"%char ∉ record_chars kv.1 kv.2) t →
  ∃ before,
    length before = 14%nat
    ∧ map string_of_list_ascii
        (split_chars "010"
           (chars preamble
              ++ flat_map (λ kv, record_chars kv.1 kv.2 ++ ["010"%char]) t ++ rest) [])
      = before
          ++ [ EmptyString; "std::map<std::string, ImageData> imageMap = {"%string ]
          ++ map (λ kv, string_of_list_ascii (record_chars kv.1 kv.2)) t
          ++ map string_of_list_ascii (split_chars "010" rest []).
Proof.
  intros Ht. destruct preamble_lines as [Hlen Hdrop].
  exists (map string_of_list_ascii
            (take 14 (removelast (split_chars "010" (chars preamble) [])))).
  split.
  - rewrite length_map, length_take, Hlen. done.
  - rewrite split_preamble, split_records by done.
    rewrite <- (take_drop 14 (removelast _)) at 1. rewrite Hdrop.
    rewrite !map_app, <- !app_assoc, map_map. done.
Qed.

(** *** The loop over the lines *)

Lemma extract_loop_step (fuel : nat) (lines : list string) (i : nat)
    (d : list (string * extracted)) (line : string) :
  lines !! i = Some line →
  extract_loop (S fuel) lines i d
    = (d' ← parse_line d line; extract_loop fuel lines (i + 1) d').
Proof.
  intros Hline.
  change (extract_loop (S fuel) lines i d) with
    (if (i <? length lines)%nat then
       line ← match lines !! i with Some l => Ok l | None => Raise IndexError end;
       d' ← parse_line d line;
       extract_loop fuel lines (i + 1) d'
     else Ok d).
  rewrite (proj2 (Nat.ltb_lt _ _) (lookup_lt_Some _ _ _ Hline)).
  by rewrite Hline.
Qed.


Lemma drop_lookup_head {A : Type} (l : list A) (i : nat) (x : A) (rest : list A) :
  drop i l = x :: rest → l !! i = Some x ∧ drop (i + 1) l = rest.
Proof.
  intros Hd. split.
  - pose proof (lookup_drop l i 0) as Hl. by rewrite Hd, Nat.add_0_r in Hl.
  - by rewrite <- drop_drop, Hd.
Qed.

Lemma extract_loop_records (lines : list string) :
  ∀ (t : list (string * Packaging.entry)) (d : list (string * extracted))
    (i fuel : nat) (rest : list string),
    drop i lines
      = map (λ kv, string_of_list_ascii (record_chars kv.1 kv.2)) t ++ rest →
    Forall (λ kv, writable kv ∧ Packaging.image_data kv.2 ≠ []) t →
    NoDup t.*1 → (∀ k, k ∈ t.*1 → k ∉ d.*1) →
    extract_loop (length t + fuel) lines i d
      = extract_loop fuel lines (i + length t) (d ++ map read_back t).
Proof.
  induction t as [|[k e] t IH]; intros d i fuel rest Hdrop Hok Hnd Hfresh.
  { simpl. by rewrite Nat.add_0_r, app_nil_r. }
  apply Forall_cons_1 in Hok as [[(Hq & Hnl & Hb & Hw & Hh & Hs) Hne] Hok].
  simpl in Hq, Hnl, Hb, Hw, Hh, Hs, Hne.
  rewrite fmap_cons in Hnd. apply NoDup_cons in Hnd as [Hk Hnd].
  cbn [map app fst snd] in Hdrop. apply drop_lookup_head in Hdrop as [Hline Hdrop].
  change (length ((k, e) :: t) + fuel)%nat with (S (length t + fuel)).
  rewrite (extract_loop_step _ _ _ _ _ Hline).
  rewrite parse_record_line by done.
  destruct (decide (Packaging.image_data e = [])); [done|].
  rewrite bind_Ok, dict_set_new by (apply Hfresh; rewrite fmap_cons; by left).
  rewrite (IH _ _ _ rest Hdrop Hok Hnd).
  - simpl length. rewrite <- app_assoc. f_equal. lia.
  - intros k' Hk'. rewrite fmap_app, not_elem_of_app. split.
    + apply Hfresh. rewrite fmap_cons. by right.
    + simpl. rewrite not_elem_of_cons. split; [|apply not_elem_of_nil].
      intros ->. done.
Qed.

Lemma parse_line_nomatch (d : list (string * extracted)) (line : string) :
  re_search pattern line = None → parse_line d line = Ok d.
Proof. intros Hs. unfold parse_line. by rewrite Hs. Qed.

Lemma writable_one_line (kv : string * Packaging.entry) :
  writable kv → "010"%char ∉ record_chars kv.1 kv.2.
Proof.
  intros (_ & Hnl & Hb & Hw & Hh & Hs). apply record_chars_one_line; try done.
  eapply Forall_impl; [exact Hb|]. simpl. intros; lia.
Qed.

(** The loop from line 14 of a header whose first records are [t]: it
    reaches the line after them with the records read back. *)
Lemma extract_loop_header (t : list (string * Packaging.entry))
    (before rest : list string) (fuel : nat) :
  length before = 14%nat →
  Forall (λ kv, writable kv ∧ Packaging.image_data kv.2 ≠ []) t →
  NoDup t.*1 →
  let lines :=
    before
      ++ [ EmptyString; "std::map<std::string, ImageData> imageMap = {"%string ]
      ++ map (λ kv, string_of_list_ascii (record_chars kv.1 kv.2)) t ++ rest in
  extract_loop (2 + (length t + fuel)) lines 14 []
    = extract_loop fuel lines (16 + length t) (map read_back t).
Proof.
  intros Hlen Hok Hnd lines.
  assert (drop 14 lines
          = EmptyString :: "std::map<std::string, ImageData> imageMap = {"%string
              :: map (λ kv, string_of_list_ascii (record_chars kv.1 kv.2)) t ++ rest)
    as Hdrop.
  { unfold lines. by rewrite drop_app_length' by done. }
  apply drop_lookup_head in Hdrop as [H14 Hdrop].
  apply drop_lookup_head in Hdrop as [H15 Hdrop].
  change (2 + (length t + fuel))%nat with (S (S (length t + fuel))).
  rewrite (extract_loop_step _ _ _ _ _ H14).
  rewrite parse_line_nomatch, bind_Ok by (vm_compute; reflexivity).
  rewrite (extract_loop_step _ _ _ _ _ H15).
  rewrite parse_line_nomatch, bind_Ok by (vm_compute; reflexivity).
  rewrite (extract_loop_records lines t [] _ fuel rest Hdrop Hok Hnd).
  - done.
  - intros k _. apply not_elem_of_nil.
Qed.

End header_roundtrip.



(** X14. A record with an empty payload makes the whole parse fail. For
    a table whose first records are as in X13 and whose next record has
    an empty payload, [extract_image_data (generate_header table)] raises
    [ValueError]: the byte list is two blanks, which [int] rejects. *)
Theorem extract_generate_header_empty_payload
    (t1 t2 : list (string * Packaging.entry)) (k : string) (e : Packaging.entry) :
  NoDup t1.*1 →
  Forall (λ kv, Header.writable kv ∧ Packaging.image_data kv.2 ≠ []) t1 →
  Header.writable (k, e) → Packaging.image_data e = [] →
  Header.extract_image_data (Header.generate_header (t1 ++ (k, e) :: t2))
    = Raise ValueError.
Proof.
  intros Hnd Hok Hke Hempty. unfold Header.extract_image_data, Header.split.
  rewrite generate_header_chars.
  replace (t1 ++ (k, e) :: t2) with ((t1 ++ [(k, e)]) ++ t2)
    by by rewrite <- app_assoc.
  rewrite flat_map_app, <- app_assoc.
  destruct (header_lines (t1 ++ [(k, e)])
              (flat_map (λ kv, Header.record_chars kv.1 kv.2 ++ ["010"%char]) t2
                 ++ list_ascii_of_string "};"))
    as (before & Hlen & ->).
  { apply Forall_app. split.
    - eapply Forall_impl; [exact Hok|]. intros kv [Hkv _]. by apply writable_one_line.
    - constructor; [by apply (writable_one_line (k, e))|constructor]. }
  set (rest := map string_of_list_ascii _).
  rewrite map_app, <- (app_assoc (map _ t1)).
  change (map (λ kv, string_of_list_ascii (Header.record_chars kv.1 kv.2)) [(k, e)])
    with [string_of_list_ascii (Header.record_chars k e)].
  set (rest' := [string_of_list_ascii (Header.record_chars k e)] ++ rest).
  rewrite !length_app, length_map, Hlen.
  replace (S (14 + (length [EmptyString;
                      "std::map<std::string, ImageData> imageMap = {"%string]
                    + (length t1 + length rest'))))%nat
    with (2 + (length t1 + S (14 + length rest')))%nat by (simpl; lia).
  rewrite (extract_loop_header t1 before rest' _ Hlen Hok Hnd).
  erewrite extract_loop_step.
  2:{ rewrite lookup_app_r by lia. rewrite lookup_app_r by (simpl; lia).
      rewrite lookup_app_r by (rewrite length_map; simpl; lia).
      rewrite length_map, Hlen.
      replace (16 + length t1 - 14
               - length [EmptyString;
                         "std::map<std::string, ImageData> imageMap = {"%string]
               - length t1)%nat with 0%nat by (simpl; lia).
      reflexivity. }
  destruct Hke as (Hq & Hnl & Hb & Hw & Hh & Hs).
  rewrite parse_record_line by done.
  by destruct (decide (Packaging.image_data e = [])).
Qed.

Lemma extract_generate_header_empty_payload_witness :
  Header.extract_image_data
    (Header.generate_header
       ([("a.png"%string, Packaging.Entry [0; 10; 7] 64 32 2048 false false)]
          ++ ("empty.png"%string, Packaging.Entry [] 0 0 0 false true)
          :: [("c.png"%string, Packaging.Entry [1] 1 1 1 false true)]))
  = Raise ValueError.
Proof.
  apply (extract_generate_header_empty_payload
           [("a.png"%string, Packaging.Entry [0; 10; 7] 64 32 2048 false false)]
           [("c.png"%string, Packaging.Entry [1] 1 1 1 false true)]
           "empty.png" (Packaging.Entry [] 0 0 0 false true)).
  - simpl. apply NoDup_cons_2; [apply not_elem_of_nil|apply NoDup_nil_2].
  - repeat constructor; simpl;
      first [ by apply literal_without | lia | discriminate ].
  - repeat split; simpl; first [ by apply literal_without | constructor | lia ].
  - reflexivity.
Defined.

(** ** When the pipeline is lossless *)

(** X15. For an image of [width * height * 4] bytes whose record is not
    raw, the verification pass rebuilds the image itself exactly when
    nothing was lost on the way: without alpha-only mode, when the image
    holds no byte 2; in alpha-only mode, when every pixel is white and no
    alpha byte is 2. *)
Theorem package_reconstruct_lossless (mode : bool) (image : list Z) (w h : Z)
    (raw : list Z) (e : Packaging.entry) :
  is_bytearray image →
  Z.of_nat (length image) = w * h * 4 →
  Packaging.package_image mode image w h raw = Ok e →
  Packaging.is_raw_png e = false →
  Main.reconstruct mode e = Ok (Main.SaveImage w h image)
  ↔ if mode
    then (∀ p, (4 * p < length image)%nat →
            image !! (4 * p)%nat = Some 255
            ∧ image !! (4 * p + 1)%nat = Some 255
            ∧ image !! (4 * p + 2)%nat = Some 255)
         ∧ 2 ∉ Alpha.get_alpha_values image
    else 2 ∉ image.
Proof.
  intros Hb Hlen Hpkg Hraw.
  destruct (reconstruct_packaged mode image w h raw Hb)
    as (e' & Hpkg' & [[Hraw' _]|(_ & rgba & Hrgba & Hrec)]).
  { rewrite Hpkg in Hpkg'. injection Hpkg' as <-. congruence. }
  rewrite Hpkg in Hpkg'. injection Hpkg' as <-. rewrite Hrec.
  assert (length image `mod` 4 = 0)%nat as Hmod.
  { assert (Z.of_nat (length image) mod 4 = 0) as Hz
      by (rewrite Hlen; apply Z.mod_mul; lia).
    apply Nat2Z.inj. by rewrite Nat2Z.inj_mod. }
  pose proof (Nat.div_mod_eq (length image) 4) as Hdiv. rewrite Hmod in Hdiv.
  assert (Z.of_nat (length rgba) = w * h * 4) as Hsize.
  { rewrite Hrgba. destruct mode; [|by rewrite length_fmap].
    rewrite expand_length, length_fmap, get_alpha_values_length, <- Hlen.
    f_equal. lia. }
  rewrite Hsize, Z.eqb_refl.
  assert (Ok (Main.SaveImage w h rgba) = Ok (Main.SaveImage w h image)
          ↔ rgba = image) as ->.
  { split; [by intros [= ->]|by intros ->]. }
  rewrite Hrgba. destruct mode.
  - pose proof (expand_alpha_fixpoint (length image `div` 4) image ltac:(lia))
      as Hwhite.
    split.
    + intros Heq.
      assert ((λ b, if b =? 2 then 1 else b) <$> Alpha.get_alpha_values image
              = Alpha.get_alpha_values image) as Hsame.
      { rewrite <- Heq at 2. by rewrite get_alpha_values_expand. }
      rewrite Hsame in Heq. split.
      * intros p Hp. apply Hwhite; [done|lia].
      * rewrite <- Hsame. apply resolved_no_marker.
    + intros [Hw Hno].
      rewrite resolved_id by by apply no_marker_lookup.
      apply Hwhite. intros p Hp. apply Hw. lia.
  - split.
    + intros Heq. rewrite <- Heq. apply resolved_no_marker.
    + intros Hno. apply resolved_id. by apply no_marker_lookup.
Qed.

Lemma package_reconstruct_lossless_witness :
  Main.reconstruct true (Packaging.Entry [0; 10] 2 1 2 false true)
    = Ok (Main.SaveImage 2 1 [255; 255; 255; 0; 255; 255; 255; 10])
  ↔ (∀ p, (4 * p < length [255; 255; 255; 0; 255; 255; 255; 10])%nat →
       [255; 255; 255; 0; 255; 255; 255; 10] !! (4 * p)%nat = Some 255
       ∧ [255; 255; 255; 0; 255; 255; 255; 10] !! (4 * p + 1)%nat = Some 255
       ∧ [255; 255; 255; 0; 255; 255; 255; 10] !! (4 * p + 2)%nat = Some 255)
    ∧ 2 ∉ Alpha.get_alpha_values [255; 255; 255; 0; 255; 255; 255; 10].
Proof.
  apply (package_reconstruct_lossless true
           [255; 255; 255; 0; 255; 255; 255; 10] 2 1 [137; 80; 78; 71]
           (Packaging.Entry [0; 10] 2 1 2 false true)).
  - repeat constructor; lia.
  - reflexivity.
  - vm_compute. reflexivity.
  - reflexivity.
Defined.
